(** * Egg: the parser and the evaluator

    A shallow embedding of the last snapshot of the interpreter:
    [skipSpace], [parseExpression], [parseApply] and [parse]; [evaluate],
    the table [specialForms], the global scope [topEnv] and [run].

    - Text.  A program is a list of characters with codes below 256, and the
      character classes of the regular expressions are taken on these codes.
    - Numbers.  A Number is a binary64 float, with the operations of the
      kernel; [Number(digits)] rounds the decimal value to the nearest float.
    - Environments.  An environment is an object made by [Object.create]: an
      address in a heap of objects, each with its own properties and its
      prototype.  A function made by [fun] holds the address of the
      environment of its definition, so the frames it shares are shared.
    - Recursion.  The parser and the evaluator take fuel.  The fuel [parse]
      gives the parser is enough for every text ([parse_total]); an
      evaluation can run for ever, and what it returns with some fuel it
      returns with more ([evaluate_fuel_mono]).
    - The host.  The operators of [topEnv] are those of the host on
      primitive values.  Their outcome on arrays and functions, the
      conversion of a Number to a string and property access other than by
      index are left out: such a call is [Unmodelled]. *)

From Stdlib Require Import ZArith Ascii String List Lia.
From Stdlib Require Import PrimFloat SpecFloat FloatOps.
From stdpp Require Import gmap strings list fin_maps.

Local Open Scope string_scope.
Local Open Scope list_scope.
Local Open Scope nat_scope.

(** ** Data model *)

(** The payload of a literal: [Number(match[0])] or the quoted text. *)
Inductive Literal : Type :=
  | Number (n : float)
  | Text (s : string).

(** [{type: value}], [{type: word}] and [{type: apply}]. *)
#[warnings="-register-all"]
Inductive Expression : Type :=
  | Value (value : Literal)
  | Word (name : string)
  | Apply (operator : Expression) (args : list Expression).

Inductive Error : Type :=
  | SyntaxError (message : string)
  | ReferenceError (message : string)
  | TypeError (message : string).

(** The outcome of a call: a returned value, a thrown error, recursion cut
    off by the fuel of the embedding, or host behaviour left out of it. *)
Inductive Result (A : Type) : Type :=
  | Ok (a : A)
  | Throw (e : Error)
  | OutOfFuel
  | Unmodelled.
Arguments Ok {A} a.
Arguments Throw {A} e.
Arguments OutOfFuel {A}.
Arguments Unmodelled {A}.

(** ** Character classes of the regular expressions *)

Module Chars.

Definition code (c : ascii) : nat := nat_of_ascii c.

(** [\s] on codes below 256: tab, LF, VT, FF, CR, space, NBSP. *)
Definition isSpace (c : ascii) : bool :=
  let n := code c in
  ((9 <=? n) && (n <=? 13)) || (n =? 32) || (n =? 160).

(** The characters [.] does not match: LF and CR. *)
Definition isLineTerminator (c : ascii) : bool :=
  let n := code c in (n =? 10) || (n =? 13).

(** [\d] *)
Definition isDigit (c : ascii) : bool :=
  let n := code c in (48 <=? n) && (n <=? 57).

(** [\w]: letters, digits and underscore. *)
Definition isWordChar (c : ascii) : bool :=
  let n := code c in
  isDigit c || ((65 <=? n) && (n <=? 90)) || ((97 <=? n) && (n <=? 122))
  || (n =? 95).

(** The double quote, character 34. *)
Definition quote : ascii := Eval compute in ascii_of_nat 34.

(** The class of the word rule: anything but [\s], the two parentheses,
    the comma and the double quote. *)
Definition isNameChar (c : ascii) : bool :=
  negb (isSpace c || Ascii.eqb c "(" || Ascii.eqb c ")" || Ascii.eqb c ","
        || Ascii.eqb c quote).

Definition digitValue (c : ascii) : Z := Z.of_nat (code c - 48).

End Chars.

(** The longest prefix whose characters satisfy [p], as a greedy character
    class repetition matches it. *)
Fixpoint takeWhile (p : ascii -> bool) (s : list ascii) : list ascii :=
  match s with
  | c :: rest => if p c then c :: takeWhile p rest else []
  | [] => []
  end.

(** [program[0] == c], false at the end of the text. *)
Definition isChar (c : ascii) (o : option ascii) : bool :=
  match o with
  | Some d => Ascii.eqb d c
  | None => false
  end.

(** ** Numbers of the host *)

(** The text after its longest prefix of characters that satisfy [p]. *)
Fixpoint dropWhile (p : ascii -> bool) (s : list ascii) : list ascii :=
  match s with
  | c :: rest => if p c then dropWhile p rest else s
  | [] => []
  end.

Module Host.

(** The binary64 float nearest to the integer [m]. *)
Definition floatOfZ (m : Z) : float :=
  SF2Prim (binary_normalize prec emax m 0%Z false).

(** The binary64 float nearest to [num / den] for positive operands: the
    quotient is taken with more than 63 significant bits and a sticky bit
    for the remainder, then rounded once. *)
Definition floatOfRatio (num den : Z) : float :=
  let shift := Z.max 0 (64 + Z.log2 den - Z.log2 num)%Z in
  let scaled := (num * 2 ^ shift)%Z in
  let sticky := if (scaled mod den =? 0)%Z then 0%Z else 1%Z in
  SF2Prim (binary_normalize prec emax (2 * (scaled / den) + sticky)%Z
             (- (shift + 1))%Z false).

(** The float nearest to [m * 10^e], [m] not negative. *)
Definition floatOfDecimal (m e : Z) : float :=
  if (m =? 0)%Z then zero
  else if (0 <=? e)%Z then floatOfZ (m * 10 ^ e)%Z
  else floatOfRatio m (10 ^ (- e))%Z.

Definition digitsValue (base : Z) (digits : list ascii) : Z :=
  fold_left (fun acc c => (base * acc + Chars.digitValue c)%Z) digits 0%Z.

Definition decimalValue (digits : list ascii) : Z := digitsValue 10 digits.

(** [Number(s)] for a string of decimal digits. *)
Definition NumberOfDigits (digits : list ascii) : float :=
  floatOfZ (decimalValue digits).

Definition trim (s : list ascii) : list ascii :=
  rev (dropWhile Chars.isSpace (rev (dropWhile Chars.isSpace s))).

Definition signed (negative : bool) (n : float) : float :=
  if negative then PrimFloat.opp n else n.

(** An exponent part: [e] or [E], an optional sign and digits up to the
    end of the string. *)
Definition exponentPart (s : list ascii) : option Z :=
  match s with
  | [] => Some 0%Z
  | c :: rest =>
      if Ascii.eqb c "e" || Ascii.eqb c "E" then
        let negative := isChar "-" (head rest) in
        let digits :=
          if isChar "-" (head rest) || isChar "+" (head rest)
          then drop 1 rest else rest in
        match digits with
        | [] => None
        | _ :: _ =>
            if forallb Chars.isDigit digits then
              Some (if negative then (- decimalValue digits)%Z
                    else decimalValue digits)
            else None
        end
      else None
  end.

(** An unsigned decimal literal: digits, an optional fraction and an
    optional exponent, with a digit before or after the dot. *)
Definition unsignedDecimal (s : list ascii) : option float :=
  let int := takeWhile Chars.isDigit s in
  let afterInt := drop (length int) s in
  let frac :=
    if isChar "." (head afterInt)
    then takeWhile Chars.isDigit (drop 1 afterInt) else [] in
  let afterFrac :=
    if isChar "." (head afterInt)
    then drop (S (length frac)) afterInt else afterInt in
  match int ++ frac with
  | [] => None
  | _ :: _ =>
      match exponentPart afterFrac with
      | Some e =>
          Some (floatOfDecimal (decimalValue (int ++ frac))
                  (e - Z.of_nat (length frac))%Z)
      | None => None
      end
  end.

Definition isRadixDigit (base : nat) (c : ascii) : bool :=
  let n := Chars.code c in
  if base <=? 10 then (48 <=? n) && (n <? 48 + base)
  else Chars.isDigit c || ((65 <=? n) && (n <=? 70)) || ((97 <=? n) && (n <=? 102)).

Definition radixDigitValue (c : ascii) : Z :=
  let n := Chars.code c in
  Z.of_nat (if n <=? 57 then n - 48 else if n <=? 70 then n - 55 else n - 87).

(** Binary, octal and hexadecimal integer literals: [0b], [0o], [0x]. *)
Definition nonDecimal (s : list ascii) : option float :=
  match s with
  | z :: p :: d :: digits =>
      let base :=
        if Ascii.eqb p "x" || Ascii.eqb p "X" then 16
        else if Ascii.eqb p "o" || Ascii.eqb p "O" then 8
        else if Ascii.eqb p "b" || Ascii.eqb p "B" then 2
        else 0 in
      if Ascii.eqb z "0" && negb (base =? 0)
         && forallb (isRadixDigit base) (d :: digits) then
        Some (floatOfZ (fold_left
                (fun acc c => (Z.of_nat base * acc + radixDigitValue c)%Z)
                (d :: digits) 0%Z))
      else None
  | _ => None
  end.

(** The conversion of a string to a Number: white space is trimmed, the
    empty string is 0, a numeric literal is its value and anything else is
    NaN. *)
Definition StringToNumber (text : string) : float :=
  let s := trim (list_ascii_of_string text) in
  match s with
  | [] => zero
  | c :: rest =>
      match nonDecimal s with
      | Some n => n
      | None =>
          let negative := Ascii.eqb c "-" in
          let body := if Ascii.eqb c "-" || Ascii.eqb c "+" then rest else s in
          if String.eqb (string_of_list_ascii body) "Infinity" then
            signed negative infinity
          else
            match unsignedDecimal body with
            | Some n => signed negative n
            | None => nan
            end
      end
  end.

End Host.

(** ** Parser *)

(** The length of the match of the separator pattern at the start of the
    string: any repetition of a white space character or a [#] followed by
    the rest of its line.  [inComment] says that the scan is inside such a
    comment: there every character but a line terminator is taken by the
    dot; elsewhere the white space class is tried, then [#]. *)
Fixpoint toSkip (inComment : bool) (s : list ascii) : nat :=
  match s with
  | [] => 0
  | c :: rest =>
      if inComment && negb (Chars.isLineTerminator c) then S (toSkip true rest)
      else if Chars.isSpace c then S (toSkip false rest)
      else if Ascii.eqb c "#" then S (toSkip true rest)
      else 0
  end.

(** [string.slice(toSkip[0].length)]; the match is never [-1]. *)
Definition skipSpace (s : list ascii) : list ascii :=
  drop (toSkip false s) s.

(** The quoted-text rule, a double quote, characters other than it and a
    double quote: the captured group. *)
Definition matchString (program : list ascii) : option (list ascii) :=
  match program with
  | c :: rest =>
      if Ascii.eqb c Chars.quote then
        let body := takeWhile (fun c => negb (Ascii.eqb c Chars.quote)) rest in
        match drop (length body) rest with
        | _ :: _ => Some body
        | [] => None
        end
      else None
  | [] => None
  end.

(** [/^\d+\b/]: the digits, when the character after them is not a word
    character. *)
Definition matchNumber (program : list ascii) : option (list ascii) :=
  let digits := takeWhile Chars.isDigit program in
  match digits with
  | [] => None
  | _ :: _ =>
      match drop (length digits) program with
      | c :: _ => if Chars.isWordChar c then None else Some digits
      | [] => Some digits
      end
  end.

(** The word rule: a non-empty run of [Chars.isNameChar]. *)
Definition matchWord (program : list ascii) : option (list ascii) :=
  match takeWhile Chars.isNameChar program with
  | [] => None
  | w => Some w
  end.

(** The three alternatives of [parseExpression]: the expression and
    [match[0].length]. *)
Definition matchPrimary (program : list ascii) : option (Expression * nat) :=
  match matchString program with
  | Some body => Some (Value (Text (string_of_list_ascii body)), length body + 2)
  | None =>
      match matchNumber program with
      | Some digits => Some (Value (Number (Host.NumberOfDigits digits)), length digits)
      | None =>
          match matchWord program with
          | Some w => Some (Word (string_of_list_ascii w), length w)
          | None => None
          end
      end
  end.

(** [parseExpression], [parseApply] and the [while] loop of [parseApply];
    every call and every turn of the loop takes one unit of fuel. *)
Fixpoint parseExpression (fuel : nat) (program : list ascii)
  : Result (Expression * list ascii) :=
  match fuel with
  | O => OutOfFuel
  | S fuel =>
      let program := skipSpace program in
      match matchPrimary program with
      | Some (expr, len) => parseApply fuel expr (drop len program)
      | None =>
          Throw (SyntaxError ("Unexected syntax: " +:+ string_of_list_ascii program))
      end
  end
with parseApply (fuel : nat) (expr : Expression) (program : list ascii)
  : Result (Expression * list ascii) :=
  match fuel with
  | O => OutOfFuel
  | S fuel =>
      let program := skipSpace program in
      if negb (isChar "(" (head program)) then Ok (expr, program)
      else
        let program := skipSpace (drop 1 program) in
        match parseArgs fuel [] program with
        | Ok (args, program) => parseApply fuel (Apply expr args) (drop 1 program)
        | Throw e => Throw e
        | OutOfFuel => OutOfFuel
        | Unmodelled => Unmodelled
        end
  end
with parseArgs (fuel : nat) (args : list Expression) (program : list ascii)
  : Result (list Expression * list ascii) :=
  match fuel with
  | O => OutOfFuel
  | S fuel =>
      if negb (isChar ")" (head program)) then
        match parseExpression fuel program with
        | Ok (arg, rest) =>
            let args := args ++ [arg] in
            let program := skipSpace rest in
            if isChar "," (head program) then
              parseArgs fuel args (skipSpace (drop 1 program))
            else if negb (isChar ")" (head program)) then
              Throw (SyntaxError "Expected ',' or ')'")
            else parseArgs fuel args program
        | Throw e => Throw e
        | OutOfFuel => OutOfFuel
        | Unmodelled => Unmodelled
        end
      else Ok (args, program)
  end.

(** Fuel that no program text exhausts (see [parse_total]). *)
Definition parseFuel (program : list ascii) : nat := 3 * length program + 3.

(** [parse] on the characters of the program. *)
Definition parseChars (program : list ascii) : Result Expression :=
  match parseExpression (parseFuel program) program with
  | Ok (expr, rest) =>
      if 0 <? length (skipSpace rest) then
        Throw (SyntaxError "Unexpected text after program")
      else Ok expr
  | Throw e => Throw e
  | OutOfFuel => OutOfFuel
  | Unmodelled => Unmodelled
  end.

(** [parse] *)
Definition parse (program : string) : Result Expression :=
  parseChars (list_ascii_of_string program).


(** ** Runtime values and the heap of environments *)

Inductive BinOp : Type := OpAdd | OpSub | OpMul | OpDiv | OpEq | OpLt | OpGt.

(** The functions of the host stored in [topEnv]. *)
Inductive Native : Type :=
  | NativeOp (op : BinOp)
  | NativePrint
  | NativeArray
  | NativeLength
  | NativeElement.

(** The address of an environment object. *)
Definition ref : Type := nat.

(** The values a program computes with.  [VFunction] is the function that
    [fun] returns: it holds [argNames], [body] and the [env] of its
    definition.  Arrays and functions are compared by no modelled operation,
    so they carry no identity. *)
#[warnings="-register-all"]
Inductive Val : Type :=
  | VNumber (n : float)
  | VText (s : string)
  | VBoolean (b : bool)
  | VUndefined
  | VArray (elements : list Val)
  | VFunction (argNames : list string) (body : Expression) (env : ref)
  | VNative (f : Native).

(** An environment object: its own properties and its prototype. *)
Record Object : Type := mkObject {
  props : gmap string Val;
  proto : option ref
}.

(** The heap of environment objects and the lines written by [print]. *)
Record State : Type := mkState {
  heap : list Object;
  output : list Val
}.

(** Computations on the state that return, throw or are cut off. *)
Definition M (A : Type) : Type := State -> Result A * State.

Definition ret {A} (a : A) : M A := fun st => (Ok a, st).
Definition throw {A} (e : Error) : M A := fun st => (Throw e, st).
Definition outOfFuel {A} : M A := fun st => (OutOfFuel, st).
Definition unmodelled {A} : M A := fun st => (Unmodelled, st).

Definition bind {A B} (m : M A) (k : A -> M B) : M B := fun st =>
  match m st with
  | (Ok a, st') => k a st'
  | (Throw e, st') => (Throw e, st')
  | (OutOfFuel, st') => (OutOfFuel, st')
  | (Unmodelled, st') => (Unmodelled, st')
  end.

Notation "'do!' x <- m 'in' k" := (bind m (fun x => k))
  (at level 10, x name, m at level 100, k at level 200).

Definition lift {A} (r : Result A) : M A := fun st => (r, st).

(** [array.map(f)] for an [f] that can throw: left to right. *)
Fixpoint mapM {A B} (f : A -> M B) (l : list A) : M (list B) :=
  match l with
  | [] => ret []
  | x :: rest =>
      do! y <- f x in
      do! ys <- mapM f rest in
      ret (y :: ys)
  end.

Module Env.

Definition getPrototypeOf (h : list Object) (env : ref) : option ref :=
  match h !! env with
  | Some o => proto o
  | None => None
  end.

Definition hasOwnProperty (h : list Object) (env : ref) (name : string) : bool :=
  match h !! env with
  | Some o => bool_decide (is_Some (props o !! name))
  | None => false
  end.

(** The property [name] of [env], found on the object or along its
    prototype chain; a chain of a heap of [n] objects has at most [n]
    links. *)
Fixpoint getFrom (n : nat) (h : list Object) (env : ref) (name : string)
  : option Val :=
  match n with
  | O => None
  | S n =>
      match h !! env with
      | Some o =>
          match props o !! name with
          | Some v => Some v
          | None =>
              match proto o with
              | Some parent => getFrom n h parent name
              | None => None
              end
          end
      | None => None
      end
  end.

(** [name in env] and [env[name]] at once. *)
Definition get (h : list Object) (env : ref) (name : string) : option Val :=
  getFrom (length h) h env name.

(** [env[name] = value]: an own property of [env] itself. *)
Definition put (env : ref) (name : string) (value : Val) : M () := fun st =>
  (Ok (),
   mkState (alter (fun o => mkObject (<[name := value]> (props o)) (proto o))
              env (heap st))
           (output st)).

(** [Object.create(parent)] *)
Definition create (parent : option ref) : M ref := fun st =>
  (Ok (length (heap st)),
   mkState (heap st ++ [mkObject ∅ parent]) (output st)).

End Env.

(** ** The operators of the host on primitive values *)

Module Ops.

(** The conversion to a Number of a primitive value. *)
Definition ToNumber (v : Val) : option float :=
  match v with
  | VNumber n => Some n
  | VText s => Some (Host.StringToNumber s)
  | VBoolean b => Some (if b then one else zero)
  | VUndefined => Some nan
  | _ => None
  end.

Definition numeric (f : float -> float -> Val) (a b : Val) : Result Val :=
  match ToNumber a, ToNumber b with
  | Some x, Some y => Ok (f x y)
  | _, _ => Unmodelled
  end.

(** The conversion to a string of a primitive value, but for numbers. *)
Definition ToStringNoNumber (v : Val) : option string :=
  match v with
  | VText s => Some s
  | VBoolean b => Some (if b then "true" else "false")
  | VUndefined => Some "undefined"
  | _ => None
  end.

Definition isText (v : Val) : bool :=
  match v with VText _ => true | _ => false end.

(** [a + b]: concatenation when an operand is a string, else addition.
    A Number joined to a string is first converted to a string by the
    host: that sum is [Unmodelled]. *)
Definition add (a b : Val) : Result Val :=
  if isText a || isText b then
    match ToStringNoNumber a, ToStringNoNumber b with
    | Some x, Some y => Ok (VText (x +:+ y))
    | _, _ => Unmodelled
    end
  else numeric (fun x y => VNumber (PrimFloat.add x y)) a b.

(** [a < b]: by character codes on two strings, else on numbers. *)
Definition lessThan (a b : Val) : Result Val :=
  match a, b with
  | VText x, VText y =>
      Ok (VBoolean (match String.compare x y with Lt => true | _ => false end))
  | _, _ => numeric (fun x y => VBoolean (PrimFloat.ltb x y)) a b
  end.

(** [a == b] on primitive values: operands of one type are compared as
    they are, operands of different types as numbers; [undefined] equals
    only itself. *)
Definition looseEquals (a b : Val) : Result Val :=
  match a, b with
  | VText x, VText y => Ok (VBoolean (String.eqb x y))
  | VBoolean x, VBoolean y => Ok (VBoolean (Bool.eqb x y))
  | VUndefined, VUndefined => Ok (VBoolean true)
  | VUndefined, (VNumber _ | VText _ | VBoolean _) => Ok (VBoolean false)
  | (VNumber _ | VText _ | VBoolean _), VUndefined => Ok (VBoolean false)
  | _, _ => numeric (fun x y => VBoolean (PrimFloat.eqb x y)) a b
  end.

(** The body [return a op b] of the function synthesized for [op]. *)
Definition binary (op : BinOp) (a b : Val) : Result Val :=
  match op with
  | OpAdd => add a b
  | OpSub => numeric (fun x y => VNumber (PrimFloat.sub x y)) a b
  | OpMul => numeric (fun x y => VNumber (PrimFloat.mul x y)) a b
  | OpDiv => numeric (fun x y => VNumber (PrimFloat.div x y)) a b
  | OpEq => looseEquals a b
  | OpLt => lessThan a b
  | OpGt => lessThan b a
  end.

(** The array index a Number denotes as a property key, if any. *)
Definition indexOf (n : float) : option Z :=
  match Prim2SF n with
  | S754_zero _ => Some 0%Z
  | S754_finite false m e =>
      if (0 <=? e)%Z then Some (Zpos m * 2 ^ e)%Z
      else if (Zpos m mod 2 ^ (- e) =? 0)%Z then Some (Zpos m / 2 ^ (- e))%Z
      else None
  | _ => None
  end.

Definition lookupIndex {A} (l : list A) (i : option Z) : option A :=
  match i with
  | Some z => if (z <? Z.of_nat (length l))%Z then l !! Z.to_nat z else None
  | None => None
  end.

End Ops.

(** The parameter at [i] of a call, [undefined] when it was not passed. *)
Definition argument (i : nat) (args : list Val) : Val :=
  match args !! i with
  | Some v => v
  | None => VUndefined
  end.

(** A call of a function of [topEnv].  [length] and [element] read a
    property of their first argument: they are modelled on an array and on
    a text with a Number as key, and on a Number, a Boolean and
    [undefined]; on a function, or with another key, the host returns a
    property of one of its own objects and the call is [Unmodelled].  The
    Type error on [undefined] has the message of the host, of which the
    beginning is kept. *)
Definition callNative (f : Native) (args : list Val) : M Val :=
  match f with
  | NativeOp op => lift (Ops.binary op (argument 0 args) (argument 1 args))
  | NativePrint => fun st =>
      (Ok (argument 0 args), mkState (heap st) (output st ++ [argument 0 args]))
  | NativeArray => ret (VArray args)
  | NativeLength =>
      match argument 0 args with
      | VArray l => ret (VNumber (Host.floatOfZ (Z.of_nat (length l))))
      | VText s => ret (VNumber (Host.floatOfZ (Z.of_nat (String.length s))))
      | VNumber _ | VBoolean _ => ret VUndefined
      | VUndefined => throw (TypeError "Cannot read properties of undefined")
      | _ => unmodelled
      end
  | NativeElement =>
      match argument 0 args, argument 1 args with
      | VArray l, VNumber n =>
          ret (match Ops.lookupIndex l (Ops.indexOf n) with
               | Some v => v
               | None => VUndefined
               end)
      | VText s, VNumber n =>
          ret (match Ops.lookupIndex (list_ascii_of_string s) (Ops.indexOf n) with
               | Some c => VText (String c EmptyString)
               | None => VUndefined
               end)
      | VUndefined, _ => throw (TypeError "Cannot read properties of undefined")
      | _, _ => unmodelled
      end
  end.

(** ** Evaluator *)

(** [evaluate] at the recursion depth left to a special form. *)
Definition Evaluator : Type := Expression -> ref -> M Val.

(** [v !== false] is [negb (isFalse v)]. *)
Definition isFalse (v : Val) : bool :=
  match v with
  | VBoolean false => true
  | _ => false
  end.

(** [typeof op == function] *)
Definition isFunction (v : Val) : bool :=
  match v with
  | VFunction _ _ _ | VNative _ => true
  | _ => false
  end.

Module SpecialForms.

Definition form_if (evaluate : Evaluator) (args : list Expression) (env : ref)
  : M Val :=
  match args with
  | [cond; thenExpr; elseExpr] =>
      do! c <- evaluate cond env in
      if negb (isFalse c) then evaluate thenExpr env
      else evaluate elseExpr env
  | _ => throw (SyntaxError "Bad number of args to if")
  end.

(** The loop of [while]: one unit of fuel for every test of the
    condition. *)
Fixpoint whileLoop (fuel : nat) (evaluate : Evaluator) (cond body : Expression)
  (env : ref) : M Val :=
  match fuel with
  | O => outOfFuel
  | S fuel =>
      do! c <- evaluate cond env in
      if negb (isFalse c) then
        do! _ <- evaluate body env in
        whileLoop fuel evaluate cond body env
      else ret (VBoolean false)
  end.

Definition form_while (fuel : nat) (evaluate : Evaluator)
  (args : list Expression) (env : ref) : M Val :=
  match args with
  | [cond; body] => whileLoop fuel evaluate cond body env
  | _ => throw (SyntaxError "Bad number of args to while")
  end.

(** [args.forEach] with the running [value]. *)
Fixpoint doLoop (evaluate : Evaluator) (value : Val) (args : list Expression)
  (env : ref) : M Val :=
  match args with
  | [] => ret value
  | arg :: rest =>
      do! v <- evaluate arg env in
      doLoop evaluate v rest env
  end.

Definition form_do (evaluate : Evaluator) (args : list Expression) (env : ref)
  : M Val :=
  doLoop evaluate (VBoolean false) args env.

Definition form_define (evaluate : Evaluator) (args : list Expression)
  (env : ref) : M Val :=
  match args with
  | [Word name; valueExpr] =>
      do! value <- evaluate valueExpr env in
      do! _ <- Env.put env name value in
      ret value
  | _ => throw (SyntaxError "Bad use of define")
  end.

(** The inner function [name] of [fun]. *)
Definition name (expr : Expression) : M string :=
  match expr with
  | Word n => ret n
  | _ => throw (SyntaxError "Arg names must be words")
  end.

Definition form_fun (args : list Expression) (env : ref) : M Val :=
  match last args with
  | None => throw (SyntaxError "Functions need a body")
  | Some body =>
      do! argNames <- mapM name (take (length args - 1) args) in
      ret (VFunction argNames body env)
  end.

(** The loop of [set]: the object to assign to, reached from [env] by
    prototype links while the object at hand has a prototype. *)
Fixpoint setLoop (n : nat) (h : list Object) (env : ref) (toSet : string)
  : option ref :=
  match n with
  | O => None
  | S n =>
      match Env.getPrototypeOf h env with
      | Some parent =>
          if Env.hasOwnProperty h env toSet then Some env
          else setLoop n h parent toSet
      | None => None
      end
  end.

Definition form_set (evaluate : Evaluator) (args : list Expression) (env : ref)
  : M Val :=
  match args with
  | [Word toSet; valueExpr] =>
      do! val <- evaluate valueExpr env in
      fun st =>
        match setLoop (length (heap st)) (heap st) env toSet with
        | Some target => (do! _ <- Env.put target toSet val in ret val) st
        | None => throw (ReferenceError ("Unknown variable: " +:+ toSet)) st
        end
  | _ => throw (SyntaxError "Bad use of set")
  end.

(** [name in specialForms] and [specialForms[name]]. *)
Definition table (fuel : nat) (evaluate : Evaluator) (name : string)
  : option (list Expression -> ref -> M Val) :=
  if String.eqb name "if" then Some (form_if evaluate)
  else if String.eqb name "while" then Some (form_while fuel evaluate)
  else if String.eqb name "do" then Some (form_do evaluate)
  else if String.eqb name "define" then Some (form_define evaluate)
  else if String.eqb name "fun" then Some form_fun
  else if String.eqb name "set" then Some (form_set evaluate)
  else None.

End SpecialForms.

(** The loop of the function returned by [fun]:
    [localEnv[argNames[i]] = arguments[i]]. *)
Fixpoint bindArguments (localEnv : ref) (argNames : list string)
  (arguments : list Val) : M () :=
  match argNames, arguments with
  | name :: names, value :: values =>
      do! _ <- Env.put localEnv name value in
      bindArguments localEnv names values
  | _, _ => ret ()
  end.

(** [op.apply(null, args)] *)
Definition call (evaluate : Evaluator) (op : Val) (arguments : list Val) : M Val :=
  match op with
  | VFunction argNames body env =>
      if negb (length arguments =? length argNames) then
        throw (TypeError "Wrong number of arguments")
      else
        do! localEnv <- Env.create (Some env) in
        do! _ <- bindArguments localEnv argNames arguments in
        evaluate body localEnv
  | VNative f => callNative f arguments
  | _ => unmodelled
  end.

Definition literal (value : Literal) : Val :=
  match value with
  | Number n => VNumber n
  | Text s => VText s
  end.

(** The special form an operator names, if it is a word in the table. *)
Definition specialForm (fuel : nat) (evaluate : Evaluator) (operator : Expression)
  : option (list Expression -> ref -> M Val) :=
  match operator with
  | Word name => SpecialForms.table fuel evaluate name
  | _ => None
  end.

(** [evaluate]; [fuel] bounds the depth of the recursion, calls of Egg
    functions included, and the turns of every [while]. *)
Fixpoint evaluate (fuel : nat) (expr : Expression) (env : ref) : M Val :=
  match fuel with
  | O => outOfFuel
  | S fuel =>
      match expr with
      | Value value => ret (literal value)
      | Word name => fun st =>
          match Env.get (heap st) env name with
          | Some v => (Ok v, st)
          | None => (Throw (ReferenceError ("Undefined variable: " +:+ name)), st)
          end
      | Apply operator args =>
          match specialForm fuel (evaluate fuel) operator with
          | Some form => form args env
          | None =>
              do! op <- evaluate fuel operator env in
              if negb (isFunction op) then
                throw (TypeError "Applying a non-function.")
              else
                do! values <- mapM (fun arg => evaluate fuel arg env) args in
                call (evaluate fuel) op values
          end
      end
  end.

(** ** The global scope and [run] *)

Definition topEnv : ref := 0.

Definition topEnvObject : Object :=
  mkObject
    (list_to_map
       [("true", VBoolean true); ("false", VBoolean false);
        ("+", VNative (NativeOp OpAdd)); ("-", VNative (NativeOp OpSub));
        ("*", VNative (NativeOp OpMul)); ("/", VNative (NativeOp OpDiv));
        ("==", VNative (NativeOp OpEq)); ("<", VNative (NativeOp OpLt));
        (">", VNative (NativeOp OpGt)); ("print", VNative NativePrint);
        ("array", VNative NativeArray); ("length", VNative NativeLength);
        ("element", VNative NativeElement)])
    None.

(** The state in which only [topEnv] exists. *)
Definition initial : State := mkState [topEnvObject] [].

Definition nl : string := String (ascii_of_nat 10) EmptyString.

(** [Array.prototype.slice.call(arguments, 0).join] with a newline. *)
Fixpoint joinLines (lines : list string) : string :=
  match lines with
  | [] => ""
  | [l] => l
  | l :: rest => l +:+ nl +:+ joinLines rest
  end.

(** [run]: the program is evaluated in a fresh child of [topEnv]. *)
Definition run (fuel : nat) (lines : list string) : Result Val * State :=
  (do! env <- Env.create (Some topEnv) in
   do! expr <- lift (parse (joinLines lines)) in
   evaluate fuel expr env) initial.

Definition result (fuel : nat) (lines : list string) : Result Val :=
  fst (run fuel lines).

(** The text [s] between double quotes, as a program writes a string. *)
Definition quoted (s : string) : string :=
  String Chars.quote (s +:+ String Chars.quote EmptyString).

(** * Properties of the evaluator *)

Section Dispatch.

Variables (fuel : nat) (args : list Expression) (env : ref) (st : State).

Lemma evaluate_if :
  evaluate (S fuel) (Apply (Word "if") args) env st
  = SpecialForms.form_if (evaluate fuel) args env st.
Proof. reflexivity. Qed.

Lemma evaluate_while :
  evaluate (S fuel) (Apply (Word "while") args) env st
  = SpecialForms.form_while fuel (evaluate fuel) args env st.
Proof. reflexivity. Qed.

Lemma evaluate_do :
  evaluate (S fuel) (Apply (Word "do") args) env st
  = SpecialForms.form_do (evaluate fuel) args env st.
Proof. reflexivity. Qed.

Lemma evaluate_define :
  evaluate (S fuel) (Apply (Word "define") args) env st
  = SpecialForms.form_define (evaluate fuel) args env st.
Proof. reflexivity. Qed.

Lemma evaluate_set :
  evaluate (S fuel) (Apply (Word "set") args) env st
  = SpecialForms.form_set (evaluate fuel) args env st.
Proof. reflexivity. Qed.

Lemma evaluate_fun :
  evaluate (S fuel) (Apply (Word "fun") args) env st
  = SpecialForms.form_fun args env st.
Proof. reflexivity. Qed.

End Dispatch.

(** A computation that does not return a value passes its outcome on. *)
Definition failure {A} (r : Result A) : Prop :=
  match r with
  | Ok _ => False
  | _ => True
  end.

Definition passOn {A B} (r : Result A) : Result B :=
  match r with
  | Ok _ => Unmodelled
  | Throw e => Throw e
  | OutOfFuel => OutOfFuel
  | Unmodelled => Unmodelled
  end.

Lemma bind_ok {A B} (m : M A) (k : A -> M B) st a st1 :
  m st = (Ok a, st1) -> bind m k st = k a st1.
Proof. intros H. unfold bind. rewrite H. reflexivity. Qed.

Lemma bind_failure {A B} (m : M A) (k : A -> M B) st r st1 :
  m st = (r, st1) -> failure r -> bind m k st = (passOn r, st1).
Proof. intros H F. unfold bind. rewrite H. destruct r; simpl in *; tauto. Qed.

Lemma isFalse_spec v : isFalse v = true <-> v = VBoolean false.
Proof.
  split.
  - destruct v as [| |[]| | | |]; simpl; congruence.
  - intros ->. reflexivity.
Qed.

Lemma isFalse_other v : v <> VBoolean false -> isFalse v = false.
Proof.
  intros H. destruct (isFalse v) eqn:E; [|reflexivity].
  apply isFalse_spec in E. contradiction.
Qed.

Section If.

Variables (ev : Evaluator) (env : ref).

Lemma form_if_arity args st :
  length args <> 3 ->
  SpecialForms.form_if ev args env st
  = (Throw (SyntaxError "Bad number of args to if"), st).
Proof.
  destruct args as [|c [|a [|b [|d rest]]]]; simpl; intros H;
    try reflexivity; lia.
Qed.

Lemma form_if_then c a b st v st1 :
  ev c env st = (Ok v, st1) -> v <> VBoolean false ->
  SpecialForms.form_if ev [c; a; b] env st = ev a env st1.
Proof.
  intros Hc Hv. simpl. rewrite (bind_ok _ _ _ _ _ Hc).
  rewrite (isFalse_other _ Hv). reflexivity.
Qed.

Lemma form_if_else c a b st st1 :
  ev c env st = (Ok (VBoolean false), st1) ->
  SpecialForms.form_if ev [c; a; b] env st = ev b env st1.
Proof. intros Hc. simpl. rewrite (bind_ok _ _ _ _ _ Hc). reflexivity. Qed.

Lemma form_if_failure c a b st r st1 :
  ev c env st = (r, st1) -> failure r ->
  SpecialForms.form_if ev [c; a; b] env st = (passOn r, st1).
Proof. intros Hc F. simpl. apply (bind_failure _ _ _ _ _ Hc F). Qed.

End If.

Section While.

Variables (ev : Evaluator) (env : ref) (cond body : Expression).

Lemma form_while_arity n args st :
  length args <> 2 ->
  SpecialForms.form_while n ev args env st
  = (Throw (SyntaxError "Bad number of args to while"), st).
Proof.
  destruct args as [|c [|a [|b rest]]]; simpl; intros H;
    try reflexivity; lia.
Qed.

Lemma whileLoop_stop n st st1 :
  ev cond env st = (Ok (VBoolean false), st1) ->
  SpecialForms.whileLoop (S n) ev cond body env st = (Ok (VBoolean false), st1).
Proof. intros Hc. simpl. rewrite (bind_ok _ _ _ _ _ Hc). reflexivity. Qed.

Lemma whileLoop_again n st v st1 w st2 :
  ev cond env st = (Ok v, st1) -> v <> VBoolean false ->
  ev body env st1 = (Ok w, st2) ->
  SpecialForms.whileLoop (S n) ev cond body env st
  = SpecialForms.whileLoop n ev cond body env st2.
Proof.
  intros Hc Hv Hb. simpl. rewrite (bind_ok _ _ _ _ _ Hc).
  rewrite (isFalse_other _ Hv). simpl. rewrite (bind_ok _ _ _ _ _ Hb).
  reflexivity.
Qed.

Lemma whileLoop_body_evaluated n st v st1 r st2 :
  ev cond env st = (Ok v, st1) -> v <> VBoolean false ->
  ev body env st1 = (r, st2) -> failure r ->
  SpecialForms.whileLoop (S n) ev cond body env st = (passOn r, st2).
Proof.
  intros Hc Hv Hb F. simpl. rewrite (bind_ok _ _ _ _ _ Hc).
  rewrite (isFalse_other _ Hv). simpl. apply (bind_failure _ _ _ _ _ Hb F).
Qed.

Lemma whileLoop_returns_false n : forall st v st',
  SpecialForms.whileLoop n ev cond body env st = (Ok v, st') ->
  v = VBoolean false.
Proof.
  induction n as [|n IH]; intros st v st'; simpl.
  - discriminate.
  - unfold bind at 1. destruct (ev cond env st) as [[c| | |] st1]; try discriminate.
    destruct (isFalse c); simpl.
    + intros [= <- _]. reflexivity.
    + unfold bind at 1.
      destruct (ev body env st1) as [[w| | |] st2]; try discriminate.
      apply IH.
Qed.

End While.

(** ** Calls of the functions made by [fun] *)

(** The own properties of [localEnv] after the loop of assignments. *)
Fixpoint assigned (m : gmap string Val) (argNames : list string)
  (arguments : list Val) : gmap string Val :=
  match argNames, arguments with
  | name :: names, value :: values => assigned (<[name := value]> m) names values
  | _, _ => m
  end.

Lemma mapM_name_words names st :
  mapM SpecialForms.name (map Word names) st = (Ok names, st).
Proof.
  induction names as [|n names IH]; simpl; [reflexivity|].
  unfold bind at 1. simpl. unfold bind at 1. rewrite IH. reflexivity.
Qed.

Lemma form_fun_closure names body env st :
  SpecialForms.form_fun (map Word names ++ [body]) env st
  = (Ok (VFunction names body env), st).
Proof.
  unfold SpecialForms.form_fun. rewrite last_snoc.
  rewrite take_app_length' by (rewrite length_app; simpl; lia).
  unfold bind. rewrite mapM_name_words. reflexivity.
Qed.

Lemma form_fun_no_body env st :
  SpecialForms.form_fun [] env st
  = (Throw (SyntaxError "Functions need a body"), st).
Proof. reflexivity. Qed.

Lemma alter_last {A} (f : A -> A) (h : list A) (o : A) :
  alter f (length h) (h ++ [o]) = h ++ [f o].
Proof.
  rewrite alter_app_r_alt by lia. rewrite Nat.sub_diag. reflexivity.
Qed.

Lemma bindArguments_spec argNames : forall arguments h o out,
  bindArguments (length h) argNames arguments (mkState (h ++ [o]) out)
  = (Ok (), mkState (h ++ [mkObject (assigned (props o) argNames arguments) (proto o)]) out).
Proof.
  induction argNames as [|name names IH]; intros [|value values] h o out;
    simpl; try (destruct o; reflexivity).
  unfold bind, Env.put. simpl.
  rewrite alter_last. rewrite IH. reflexivity.
Qed.

Lemma call_wrong_arity ev argNames body env arguments st :
  length arguments <> length argNames ->
  call ev (VFunction argNames body env) arguments st
  = (Throw (TypeError "Wrong number of arguments"), st).
Proof.
  intros H. simpl.
  destruct (length arguments =? length argNames) eqn:E; [|reflexivity].
  apply Nat.eqb_eq in E. contradiction.
Qed.

Lemma call_closure ev argNames body env arguments st :
  length arguments = length argNames ->
  call ev (VFunction argNames body env) arguments st
  = ev body (length (heap st))
      (mkState (heap st ++ [mkObject (assigned ∅ argNames arguments) (Some env)])
               (output st)).
Proof.
  intros H. simpl. rewrite (proj2 (Nat.eqb_eq _ _) H). simpl.
  unfold bind at 1. unfold Env.create at 1.
  unfold bind at 1. rewrite bindArguments_spec. reflexivity.
Qed.

Lemma assigned_later argNames : forall arguments name,
  name ∉ argNames ->
  forall m : gmap string Val, assigned m argNames arguments !! name = m !! name.
Proof.
  induction argNames as [|n names IH]; intros [|v values] name Hn m;
    simpl; try reflexivity.
  apply not_elem_of_cons in Hn as [Hne Hn].
  rewrite IH by assumption. apply lookup_insert_ne. congruence.
Qed.

(** The value a name holds after the loop is the argument at the last
    position of the name among the parameters. *)
Lemma assigned_last argNames : forall arguments (m : gmap string Val) i name value,
  argNames !! i = Some name -> arguments !! i = Some value ->
  (forall j, i < j -> argNames !! j <> Some name) ->
  assigned m argNames arguments !! name = Some value.
Proof.
  induction argNames as [|n names IH];
    intros [|v values] m i name value Hn Hv Hlast;
    try (destruct i; discriminate).
  destruct i as [|i]; simpl in *.
  - injection Hn as ->. injection Hv as ->.
    rewrite assigned_later; [apply lookup_insert_eq|].
    intros Hin. apply list_elem_of_lookup in Hin as [j Hj].
    apply (Hlast (S j)); [lia|exact Hj].
  - apply (IH values _ i); try assumption.
    intros j Hj. apply (Hlast (S j)). lia.
Qed.

Lemma NoDup_last (argNames : list string) i name :
  NoDup argNames -> argNames !! i = Some name ->
  forall j, i < j -> argNames !! j <> Some name.
Proof.
  intros Hd Hi j Hj Hn.
  pose proof (NoDup_lookup _ _ _ _ Hd Hi Hn). lia.
Qed.

(** ** The loop of [set] *)

Lemma setLoop_target n : forall h env toSet target,
  SpecialForms.setLoop n h env toSet = Some target ->
  Env.hasOwnProperty h target toSet = true
  /\ is_Some (Env.getPrototypeOf h target).
Proof.
  induction n as [|n IH]; intros h env toSet target; simpl; [discriminate|].
  destruct (Env.getPrototypeOf h env) as [parent|] eqn:Hp; [|discriminate].
  destruct (Env.hasOwnProperty h env toSet) eqn:Ho.
  - intros [= <-]. rewrite Hp. split; [assumption|eexists; reflexivity].
  - apply IH.
Qed.

Lemma setLoop_owner n h env toSet :
  is_Some (Env.getPrototypeOf h env) ->
  Env.hasOwnProperty h env toSet = true ->
  SpecialForms.setLoop (S n) h env toSet = Some env.
Proof. intros [parent Hp] Ho. simpl. rewrite Hp, Ho. reflexivity. Qed.

Lemma setLoop_parent n h env parent toSet :
  Env.getPrototypeOf h env = Some parent ->
  Env.hasOwnProperty h env toSet = false ->
  SpecialForms.setLoop (S n) h env toSet = SpecialForms.setLoop n h parent toSet.
Proof. intros Hp Ho. simpl. rewrite Hp, Ho. reflexivity. Qed.

Lemma setLoop_root n h env toSet :
  Env.getPrototypeOf h env = None ->
  SpecialForms.setLoop n h env toSet = None.
Proof. intros Hp. destruct n; simpl; [reflexivity|]. rewrite Hp. reflexivity. Qed.

(** * The fuel of the evaluator *)

(** The outcome of a computation unless it was cut off. *)
Definition finished {A} (r : Result A * State) : Prop := fst r <> OutOfFuel.

(** [ev'] returns what [ev] returns wherever [ev] is not cut off. *)
Definition extends (ev ev' : Evaluator) : Prop :=
  forall expr env st, finished (ev expr env st) -> ev' expr env st = ev expr env st.

Lemma bind_extends {A B} (m m' : M A) (k k' : A -> M B) st :
  (finished (m st) -> m' st = m st) ->
  (forall a st1, finished (k a st1) -> k' a st1 = k a st1) ->
  finished (bind m k st) -> bind m' k' st = bind m k st.
Proof.
  unfold finished, bind. intros Hm Hk H.
  destruct (m st) as [[a| | |] st1] eqn:E; simpl in *;
    try (rewrite Hm by discriminate; reflexivity).
  - rewrite Hm by discriminate. apply Hk, H.
  - congruence.
Qed.

Section Extends.

Variables (ev ev' : Evaluator).
Hypothesis Hev : extends ev ev'.

Lemma mapM_extends env args : forall st,
  finished (mapM (fun arg => ev arg env) args st) ->
  mapM (fun arg => ev' arg env) args st = mapM (fun arg => ev arg env) args st.
Proof.
  induction args as [|arg args IH]; intros st H; [reflexivity|].
  cbn [mapM] in *. revert H. apply bind_extends; [apply Hev|].
  intros v st1. apply bind_extends; [apply IH|]. reflexivity.
Qed.

Lemma form_if_extends args env st :
  finished (SpecialForms.form_if ev args env st) ->
  SpecialForms.form_if ev' args env st = SpecialForms.form_if ev args env st.
Proof.
  destruct args as [|c [|a [|b [|d rest]]]]; try reflexivity.
  cbn [SpecialForms.form_if]. apply bind_extends; [apply Hev|].
  intros v st1. destruct (negb (isFalse v)); apply Hev.
Qed.

Lemma whileLoop_extends cond body env n : forall st,
  finished (SpecialForms.whileLoop n ev cond body env st) ->
  SpecialForms.whileLoop (S n) ev' cond body env st
  = SpecialForms.whileLoop n ev cond body env st.
Proof.
  induction n as [|n IH]; intros st H; [exfalso; apply H; reflexivity|].
  revert H. cbn [SpecialForms.whileLoop].
  apply bind_extends; [apply Hev|].
  intros v st1. destruct (negb (isFalse v)); [|reflexivity].
  apply bind_extends; [apply Hev|]. intros _ st2. apply IH.
Qed.

Lemma form_while_extends n args env st :
  finished (SpecialForms.form_while n ev args env st) ->
  SpecialForms.form_while (S n) ev' args env st
  = SpecialForms.form_while n ev args env st.
Proof.
  destruct args as [|c [|b [|d rest]]]; try reflexivity.
  apply whileLoop_extends.
Qed.

Lemma doLoop_extends env args : forall value st,
  finished (SpecialForms.doLoop ev value args env st) ->
  SpecialForms.doLoop ev' value args env st
  = SpecialForms.doLoop ev value args env st.
Proof.
  induction args as [|arg args IH]; intros value st; [reflexivity|].
  cbn [SpecialForms.doLoop]. apply bind_extends; [apply Hev|].
  intros v st1. apply IH.
Qed.

Lemma form_define_extends args env st :
  finished (SpecialForms.form_define ev args env st) ->
  SpecialForms.form_define ev' args env st
  = SpecialForms.form_define ev args env st.
Proof.
  destruct args as [|[| name |] [|valueExpr [|d rest]]]; try reflexivity.
  cbn [SpecialForms.form_define]. apply bind_extends; [apply Hev|].
  reflexivity.
Qed.

Lemma form_set_extends args env st :
  finished (SpecialForms.form_set ev args env st) ->
  SpecialForms.form_set ev' args env st = SpecialForms.form_set ev args env st.
Proof.
  destruct args as [|[| name |] [|valueExpr [|d rest]]]; try reflexivity.
  cbn [SpecialForms.form_set]. apply bind_extends; [apply Hev|].
  reflexivity.
Qed.

Lemma call_extends op arguments st :
  finished (call ev op arguments st) ->
  call ev' op arguments st = call ev op arguments st.
Proof.
  destruct op; try reflexivity. cbn [call].
  destruct (negb (length arguments =? length argNames)); [reflexivity|].
  apply bind_extends; [reflexivity|]. intros localEnv st1.
  apply bind_extends; [reflexivity|]. intros _ st2. apply Hev.
Qed.

Lemma specialForm_extends n operator :
  match specialForm n ev operator, specialForm (S n) ev' operator with
  | Some form, Some form' =>
      forall args env st,
        finished (form args env st) -> form' args env st = form args env st
  | None, None => True
  | _, _ => False
  end.
Proof.
  destruct operator as [| name |]; try exact I.
  unfold specialForm, SpecialForms.table.
  destruct (String.eqb name "if"); [apply form_if_extends|].
  destruct (String.eqb name "while"); [apply form_while_extends|].
  destruct (String.eqb name "do");
    [intros args env st; apply doLoop_extends|].
  destruct (String.eqb name "define"); [apply form_define_extends|].
  destruct (String.eqb name "fun"); [reflexivity|].
  destruct (String.eqb name "set"); [apply form_set_extends|].
  exact I.
Qed.

End Extends.

Lemma evaluate_S fuel expr env :
  evaluate (S fuel) expr env
  = match expr with
    | Value value => ret (literal value)
    | Word name => fun st =>
        match Env.get (heap st) env name with
        | Some v => (Ok v, st)
        | None => (Throw (ReferenceError ("Undefined variable: " +:+ name)), st)
        end
    | Apply operator args =>
        match specialForm fuel (evaluate fuel) operator with
        | Some form => form args env
        | None =>
            do! op <- evaluate fuel operator env in
            if negb (isFunction op) then
              throw (TypeError "Applying a non-function.")
            else
              do! values <- mapM (fun arg => evaluate fuel arg env) args in
              call (evaluate fuel) op values
        end
    end.
Proof. reflexivity. Qed.

(** One more unit of fuel changes no outcome but a cut. *)
Lemma evaluate_fuel_step fuel : extends (evaluate fuel) (evaluate (S fuel)).
Proof.
  induction fuel as [|fuel IH]; intros expr env st H;
    [exfalso; apply H; reflexivity|].
  rewrite (evaluate_S (S fuel)). rewrite (evaluate_S fuel) in H |- *.
  destruct expr as [value|name|operator args]; try reflexivity.
  pose proof (specialForm_extends _ _ IH fuel operator) as Hform.
  destruct (specialForm fuel (evaluate fuel) operator) as [form|],
    (specialForm (S fuel) (evaluate (S fuel)) operator) as [form'|];
    try contradiction.
  - apply Hform, H.
  - revert H. apply bind_extends; [apply IH|]. intros op st1.
    destruct (negb (isFunction op)); [reflexivity|].
    apply bind_extends; [apply mapM_extends, IH|].
    intros values st2. apply call_extends, IH.
Qed.

(** The outcome of an evaluation that is not cut off is its outcome with
    any larger fuel. *)
Lemma evaluate_fuel_mono n m expr env st :
  n <= m -> finished (evaluate n expr env st) ->
  evaluate m expr env st = evaluate n expr env st.
Proof.
  induction 1 as [|m Hle IH]; intros H; [reflexivity|].
  rewrite <- (IH H). apply evaluate_fuel_step. rewrite (IH H). exact H.
Qed.

Lemma run_fuel_mono n m lines :
  n <= m -> finished (run n lines) -> run m lines = run n lines.
Proof.
  intros Hle. unfold run. apply bind_extends; [reflexivity|].
  intros env st1. apply bind_extends; [reflexivity|].
  intros expr st2. apply evaluate_fuel_mono, Hle.
Qed.

(** A result computed with some fuel is the result with any larger fuel. *)
Lemma result_fuel_mono n m lines r :
  result n lines = r -> r <> OutOfFuel -> n <= m -> result m lines = r.
Proof.
  unfold result. intros <- Hr Hle. rewrite (run_fuel_mono n m lines Hle Hr).
  reflexivity.
Qed.

(** The program evaluates to [r]: [run] returns [r] with every fuel from
    some fuel on. *)
Definition evaluatesTo (lines : list string) (r : Result Val) : Prop :=
  exists n, forall fuel, n <= fuel -> result fuel lines = r.

(** The same with the values written by [print]. *)
Definition evaluatesPrinting (lines : list string) (r : Result Val)
  (written : list Val) : Prop :=
  exists n, forall fuel, n <= fuel ->
    result fuel lines = r /\ output (snd (run fuel lines)) = written.

Ltac evaluation n :=
  exists n; intros fuel Hfuel;
  apply (result_fuel_mono n fuel); [vm_compute; reflexivity|discriminate|exact Hfuel].

Ltac evaluation_printing n :=
  exists n; intros fuel Hfuel;
  rewrite (run_fuel_mono n fuel _ Hfuel) by (vm_compute; discriminate);
  unfold result;
  rewrite (run_fuel_mono n fuel _ Hfuel) by (vm_compute; discriminate);
  split; vm_compute; reflexivity.

Ltac by_running :=
  repeat match goal with |- _ /\ _ => split end;
  lazymatch goal with
  | |- evaluatesTo _ _ => evaluation 40
  | |- evaluatesPrinting _ _ _ => evaluation_printing 40
  | |- _ => vm_compute; reflexivity
  end.

(** ** Ordinary applications *)

(** An application whose operator is not a special form: the operator is
    evaluated to a function, the arguments from left to right, and the
    function is called on their values. *)
Lemma evaluate_apply fuel operator args env st op st1 values st2 :
  specialForm fuel (evaluate fuel) operator = None ->
  evaluate fuel operator env st = (Ok op, st1) ->
  isFunction op = true ->
  mapM (fun arg => evaluate fuel arg env) args st1 = (Ok values, st2) ->
  evaluate (S fuel) (Apply operator args) env st
  = call (evaluate fuel) op values st2.
Proof.
  intros Hform Hop Hfun Hargs. rewrite evaluate_S, Hform.
  rewrite (bind_ok _ _ _ _ _ Hop), Hfun. cbn [negb].
  rewrite (bind_ok _ _ _ _ _ Hargs). reflexivity.
Qed.

Lemma evaluate_apply_non_function fuel operator args env st op st1 :
  specialForm fuel (evaluate fuel) operator = None ->
  evaluate fuel operator env st = (Ok op, st1) ->
  isFunction op = false ->
  evaluate (S fuel) (Apply operator args) env st
  = (Throw (TypeError "Applying a non-function."), st1).
Proof.
  intros Hform Hop Hfun. rewrite evaluate_S, Hform.
  rewrite (bind_ok _ _ _ _ _ Hop), Hfun. reflexivity.
Qed.

(** The test program of the source: the sum of the numbers 1 to 10 is 55,
    and [print] writes it once. *)
Lemma sum_of_1_to_10 :
  evaluatesPrinting
    ["do(define(total,0),";
     "   define(count, 1),";
     "   while(<(count,11),";
     "         do(define(total, +(total, count)),";
     "            define(count, +(count, 1)))),";
     "   print(total))"]
    (Ok (VNumber 55)) [VNumber 55].
Proof. by_running. Qed.

(** The array test of the source and the two array primitives. *)
Lemma arrays :
  evaluatesTo
    ["do(define(sum, fun(array,";
     "     do(define(i, 0),";
     "        define(sum, 0),";
     "        while(<(i, length(array)),";
     "          do(define(sum, +(sum, element(array, i))),";
     "             define(i, +(i, 1)))),";
     "        sum))),";
     "   print(sum(array(1, 2, 3))))"]
    (Ok (VNumber 6))
  /\ evaluatesTo ["length(array(1,2,3))"] (Ok (VNumber 3))
  /\ evaluatesTo ["element(array(1,2,3), 1)"] (Ok (VNumber 2)).
Proof. by_running. Qed.

(** * The claims *)

(** C1, at the input where the program departs from it: the root object
    [topEnv] owns [true], and [set(true, 5)], run in a child of [topEnv],
    throws the Reference error instead of assigning.  The loop of [set]
    stops at an object without a prototype before testing it, so the object
    it assigns to always has a prototype; a binding of an inner frame is
    assigned and a name bound nowhere is an error, as the claim says. *)
Theorem set_misses_root_binding :
  Env.hasOwnProperty (heap initial) topEnv "true" = true
  /\ evaluatesTo ["set(true, 5)"]
       (Throw (ReferenceError "Unknown variable: true"))
  /\ (forall n h env toSet target,
        SpecialForms.setLoop n h env toSet = Some target ->
        is_Some (Env.getPrototypeOf h target))
  /\ (forall n h env toSet,
        Env.getPrototypeOf h env = None ->
        SpecialForms.setLoop n h env toSet = None)
  /\ evaluatesTo ["do(define(x,4), define(setx, fun(val, set(x, val))), setx(50), x)"]
       (Ok (VNumber 50))
  /\ evaluatesTo ["set(quux, true)"]
       (Throw (ReferenceError "Unknown variable: quux")).
Proof.
  split; [reflexivity|].
  split; [by_running|].
  split; [intros n h env toSet target H; apply (setLoop_target _ _ _ _ _ H)|].
  split; [intros; apply setLoop_root; assumption|].
  by_running.
Qed.

(** The three variants of the operands of C2. *)
Inductive Variant : Type := IsNumber | IsText | IsBoolean.

Definition variant (v : Val) : option Variant :=
  match v with
  | VNumber _ => Some IsNumber
  | VText _ => Some IsText
  | VBoolean _ => Some IsBoolean
  | _ => None
  end.

(** C2 fails as stated: [==] returns [true] on the Boolean [true] and the
    Number 1, on the Number 1 and the Text of the digit 1, and on the empty
    Text and the Boolean [false], three pairs of operands of different
    variants. *)
Lemma loose_equality_across_variants :
  callNative (NativeOp OpEq) [VBoolean true; VNumber 1] initial
  = (Ok (VBoolean true), initial)
  /\ variant (VBoolean true) <> variant (VNumber 1)
  /\ evaluatesTo ["==(true, 1)"]
       (Ok (VBoolean true))
  /\ evaluatesTo ["==(1, " +:+ quoted "1" +:+ ")"]
       (Ok (VBoolean true))
  /\ evaluatesTo ["==(" +:+ quoted "" +:+ ", false)"]
       (Ok (VBoolean true)).
Proof.
  split; [reflexivity|]. split; [discriminate|].
  by_running.
Qed.

(** C2 as amended: [==] is the loose equality of the host.  Two Texts or two
    Booleans are equal exactly when they are the same value; two Numbers are
    compared by the numeric equality of the host, under which NaN differs
    from itself; operands of different variants among Number, Text and
    Boolean are both converted to Numbers and compared as such. *)
Theorem loose_equality_of_host :
  (forall (x y : string) st,
     callNative (NativeOp OpEq) [VText x; VText y] st
     = (Ok (VBoolean (bool_decide (x = y))), st))
  /\ (forall (x y : bool) st,
        callNative (NativeOp OpEq) [VBoolean x; VBoolean y] st
        = (Ok (VBoolean (bool_decide (x = y))), st))
  /\ (forall (x y : float) st,
        callNative (NativeOp OpEq) [VNumber x; VNumber y] st
        = (Ok (VBoolean (PrimFloat.eqb x y)), st))
  /\ (forall a b st,
        is_Some (variant a) -> is_Some (variant b) -> variant a <> variant b ->
        exists x y,
          Ops.ToNumber a = Some x /\ Ops.ToNumber b = Some y
          /\ callNative (NativeOp OpEq) [a; b] st
             = (Ok (VBoolean (PrimFloat.eqb x y)), st))
  /\ Ops.ToNumber (VBoolean true) = Some 1%float
  /\ Ops.ToNumber (VBoolean false) = Some 0%float
  /\ Ops.ToNumber (VText "1") = Some 1%float
  /\ Ops.ToNumber (VText "") = Some 0%float
  /\ evaluatesTo ["==(/(0, 0), /(0, 0))"]
       (Ok (VBoolean false)).
Proof.
  split.
  { intros x y st. unfold callNative, lift. simpl. do 3 f_equal.
    destruct (String.eqb_spec x y) as [->|Hne].
    - rewrite bool_decide_eq_true_2; reflexivity.
    - rewrite bool_decide_eq_false_2; [reflexivity|assumption]. }
  split.
  { intros [] [] st; reflexivity. }
  split.
  { intros x y st. reflexivity. }
  split.
  { intros a b st [va Ha] [vb Hb] Hne.
    destruct a; try discriminate; destruct b; try discriminate;
      try (exfalso; apply Hne; reflexivity);
      eexists; eexists; (split; [reflexivity|split; [reflexivity|]]);
      reflexivity. }
  by_running.
Qed.

(** C3: an application whose operator is the word [if], [while], [do],
    [define], [set] or [fun] is the call of that special form on the
    argument expressions as they are, in every state and so whatever the
    environment binds the word to; a binding of [if] made by [define] and
    changed by [set] is read by the word [if] alone and leaves the form
    [if] as it was. *)
Theorem special_forms_dispatch :
  (forall fuel args env st,
     evaluate (S fuel) (Apply (Word "if") args) env st
     = SpecialForms.form_if (evaluate fuel) args env st
     /\ evaluate (S fuel) (Apply (Word "while") args) env st
        = SpecialForms.form_while fuel (evaluate fuel) args env st
     /\ evaluate (S fuel) (Apply (Word "do") args) env st
        = SpecialForms.form_do (evaluate fuel) args env st
     /\ evaluate (S fuel) (Apply (Word "define") args) env st
        = SpecialForms.form_define (evaluate fuel) args env st
     /\ evaluate (S fuel) (Apply (Word "set") args) env st
        = SpecialForms.form_set (evaluate fuel) args env st
     /\ evaluate (S fuel) (Apply (Word "fun") args) env st
        = SpecialForms.form_fun args env st)
  /\ evaluatesTo ["do(define(if, 5), if)"]
       (Ok (VNumber 5))
  /\ evaluatesTo ["do(define(if, 5), if(false, 1, 2))"]
       (Ok (VNumber 2))
  /\ evaluatesTo ["do(define(if, 5), set(if, fun(a, b, c, 7)), if(false, 1, 2))"]
       (Ok (VNumber 2))
  /\ evaluatesTo ["do(define(do, 5), define(define, 6), do(define(x, 1), x))"]
       (Ok (VNumber 1)).
Proof.
  split; [intros; repeat split|].
  by_running.
Qed.

(** C4 fails as stated for a function whose parameters repeat a name:
    the loop of assignments writes the same property again, so the
    parameter at the first position does not hold its argument.  The
    function [fun(a, a, a)] called on 1 and 2 evaluates its body where [a]
    is 2. *)
Lemma repeated_parameter_holds_last_argument :
  evaluatesTo ["do(define(f, fun(a, a, a)), f(1, 2))"]
    (Ok (VNumber 2))
  /\ call (evaluate 1) (VFunction ["a"; "a"] (Word "a") topEnv)
       [VNumber 1; VNumber 2] initial
     = (Ok (VNumber 2),
        mkState (heap initial ++ [mkObject {[ "a" := VNumber 2 ]} (Some topEnv)])
          (output initial))
  /\ ["a"; "a"] !! 0 = Some "a"
  /\ [VNumber 1; VNumber 2] !! 0 = Some (VNumber 1)
  /\ ({[ "a" := VNumber 2 ]} : gmap string Val) !! "a" <> Some (VNumber 1).
Proof.
  split; [evaluation 40|].
  split; [vm_compute; reflexivity|].
  split; [reflexivity|]. split; [reflexivity|].
  rewrite lookup_singleton_eq. intros [= H].
Qed.

(** C4 as amended: [fun] applied to parameter words and a body returns the
    function holding the names, the body and the environment of the
    definition; an application whose operator evaluates to it calls it on
    the values of the arguments.  A call of it with another number of
    arguments throws the Type error and changes nothing.  A call with as
    many arguments as names evaluates the body in a new object at the end
    of the heap whose prototype is the environment of the definition; in
    that object a parameter name holds the argument at the last position of
    the name among the parameters, no other name is bound, and so, when no
    name is repeated, every parameter holds the argument at its position. *)
Theorem closure_call :
  (forall names body env st,
     evaluate 1 (Apply (Word "fun") (map Word names ++ [body])) env st
     = (Ok (VFunction names body env), st))
  /\ (forall fuel operator args env st argNames body env' st1 values st2,
        specialForm fuel (evaluate fuel) operator = None ->
        evaluate fuel operator env st = (Ok (VFunction argNames body env'), st1) ->
        mapM (fun arg => evaluate fuel arg env) args st1 = (Ok values, st2) ->
        evaluate (S fuel) (Apply operator args) env st
        = call (evaluate fuel) (VFunction argNames body env') values st2)
  /\ (forall ev argNames body env arguments st,
        length arguments <> length argNames ->
        call ev (VFunction argNames body env) arguments st
        = (Throw (TypeError "Wrong number of arguments"), st))
  /\ (forall ev argNames body env arguments st,
        length arguments = length argNames ->
        exists frame : gmap string Val,
          call ev (VFunction argNames body env) arguments st
          = ev body (length (heap st))
              (mkState (heap st ++ [mkObject frame (Some env)]) (output st))
          /\ (forall i name,
                argNames !! i = Some name ->
                (forall j, i < j -> argNames !! j <> Some name) ->
                frame !! name = arguments !! i)
          /\ (forall name, name ∉ argNames -> frame !! name = None)
          /\ (NoDup argNames ->
              forall i name, argNames !! i = Some name ->
                frame !! name = arguments !! i))
  /\ evaluatesTo ["do(define(f, fun(a, fun(b, +(a, b)))), f(4)(5))"]
       (Ok (VNumber 9))
  /\ evaluatesTo ["do(define(f, fun(a, fun(b, +(a, b)))), f(4, 5))"]
       (Throw (TypeError "Wrong number of arguments")).
Proof.
  split; [intros; rewrite evaluate_fun; apply form_fun_closure|].
  split; [intros; eapply evaluate_apply; eauto|].
  split; [intros; apply call_wrong_arity; assumption|].
  split; [|by_running].
  intros ev argNames body env arguments st Hlen.
  exists (assigned ∅ argNames arguments).
  split; [apply call_closure; assumption|].
  assert (Hlast : forall i name,
            argNames !! i = Some name ->
            (forall j, i < j -> argNames !! j <> Some name) ->
            assigned ∅ argNames arguments !! name = arguments !! i).
  { intros i name Hi Hj.
    destruct (arguments !! i) as [value|] eqn:Hv.
    - apply (assigned_last argNames arguments ∅ i); assumption.
    - apply lookup_lt_Some in Hi. apply lookup_ge_None in Hv. lia. }
  split; [exact Hlast|]. split.
  - intros name Hn. rewrite assigned_later by assumption. apply lookup_empty.
  - intros Hd i name Hi. apply Hlast; [exact Hi|].
    apply NoDup_last; assumption.
Qed.

(** C5: [if] with a number of arguments other than 3 throws the Syntax
    error.  With 3 it evaluates the first; when that is a value other than
    the Boolean [false] the result is that of the second, evaluated in the
    state the first left, and when it is [false] that of the third; a
    condition that does not return passes its outcome on.  The other branch
    does not occur in the result: it may be an unbound word or a call of
    [print] and nothing is thrown or written. *)
Theorem if_special_form :
  (forall fuel args env st,
     length args <> 3 ->
     evaluate (S fuel) (Apply (Word "if") args) env st
     = (Throw (SyntaxError "Bad number of args to if"), st))
  /\ (forall fuel c a b env st v st1,
        evaluate fuel c env st = (Ok v, st1) -> v <> VBoolean false ->
        evaluate (S fuel) (Apply (Word "if") [c; a; b]) env st
        = evaluate fuel a env st1)
  /\ (forall fuel c a b env st st1,
        evaluate fuel c env st = (Ok (VBoolean false), st1) ->
        evaluate (S fuel) (Apply (Word "if") [c; a; b]) env st
        = evaluate fuel b env st1)
  /\ (forall fuel c a b env st r st1,
        evaluate fuel c env st = (r, st1) -> failure r ->
        evaluate (S fuel) (Apply (Word "if") [c; a; b]) env st
        = (passOn r, st1))
  /\ evaluatesTo ["if(true, 1, 2)"]
       (Ok (VNumber 1))
  /\ evaluatesTo ["if(false, 1, 2)"]
       (Ok (VNumber 2))
  /\ evaluatesTo ["if(true, 1, nowhere)"]
       (Ok (VNumber 1))
  /\ evaluatesTo ["if(false, nowhere, 2)"]
       (Ok (VNumber 2))
  /\ evaluatesPrinting ["if(false, print(1), 2)"] (Ok (VNumber 2)) []
  /\ evaluatesPrinting ["if(true, 1, print(2))"] (Ok (VNumber 1)) []
  /\ evaluatesPrinting ["if(true, print(1), print(2))"] (Ok (VNumber 1))
       [VNumber 1].
Proof.
  split; [intros; rewrite evaluate_if; apply form_if_arity; assumption|].
  split; [intros; rewrite evaluate_if; eapply form_if_then; eassumption|].
  split; [intros; rewrite evaluate_if; eapply form_if_else; eassumption|].
  split; [intros; rewrite evaluate_if; eapply form_if_failure; eassumption|].
  by_running.
Qed.

(** C6: when the condition evaluates to a value other than the Boolean
    [false], whatever it is, [if] continues with its second argument and
    [while] evaluates its body and then tests the condition again; when it
    evaluates to the Boolean [false], [if] continues with its third argument
    and [while] ends. *)
Theorem only_false_is_falsy fuel c a b body env st v st1 :
  evaluate (S fuel) c env st = (Ok v, st1) ->
  (v <> VBoolean false ->
   evaluate (S (S fuel)) (Apply (Word "if") [c; a; b]) env st
   = evaluate (S fuel) a env st1
   /\ evaluate (S (S fuel)) (Apply (Word "while") [c; body]) env st
      = bind (evaluate (S fuel) body env)
          (fun _ => SpecialForms.whileLoop fuel (evaluate (S fuel)) c body env)
          st1)
  /\ (v = VBoolean false ->
      evaluate (S (S fuel)) (Apply (Word "if") [c; a; b]) env st
      = evaluate (S fuel) b env st1
      /\ evaluate (S (S fuel)) (Apply (Word "while") [c; body]) env st
         = (Ok (VBoolean false), st1)).
Proof.
  intros Hc. split.
  - intros Hv. split.
    + rewrite evaluate_if. eapply form_if_then; eassumption.
    + rewrite evaluate_while. simpl SpecialForms.form_while.
      simpl SpecialForms.whileLoop. rewrite (bind_ok _ _ _ _ _ Hc).
      rewrite (isFalse_other _ Hv). reflexivity.
  - intros ->. split.
    + rewrite evaluate_if. eapply form_if_else; eassumption.
    + rewrite evaluate_while. apply whileLoop_stop. assumption.
Qed.

(** C6 on the Number 0 as a condition, in the first state of [run]: it is a
    value other than [false], and [if(0, 1, 2)] is 1. *)
Lemma only_false_is_falsy_zero :
  evaluate 1 (Value (Number 0)) 1 (snd (Env.create (Some topEnv) initial))
  = (Ok (VNumber 0), snd (Env.create (Some topEnv) initial))
  /\ VNumber 0 <> VBoolean false
  /\ evaluate 2 (Apply (Word "if") [Value (Number 0); Value (Number 1); Value (Number 2)])
       1 (snd (Env.create (Some topEnv) initial))
     = (Ok (VNumber 1), snd (Env.create (Some topEnv) initial)).
Proof.
  split; [reflexivity|]. split; [discriminate|].
  rewrite (proj1 (proj1 (only_false_is_falsy 0 (Value (Number 0))
                           (Value (Number 1)) (Value (Number 2))
                           (Value (Number 2)) 1
                           (snd (Env.create (Some topEnv) initial)) (VNumber 0)
                           (snd (Env.create (Some topEnv) initial)) eq_refl)
                    ltac:(discriminate))).
  reflexivity.
Defined.

(** The conditions C6 names, as programs: the Number 0, the empty Text, an
    empty array and [undefined] select the second argument of [if], and a
    [while] whose condition is 0 evaluates its body. *)
Lemma truthy_conditions :
  evaluatesTo ["if(0, 1, 2)"]
       (Ok (VNumber 1))
  /\ evaluatesTo ["if(" +:+ quoted "" +:+ ", 1, 2)"]
       (Ok (VNumber 1))
  /\ evaluatesTo ["if(array(), 1, 2)"]
       (Ok (VNumber 1))
  /\ evaluatesTo ["if(print(), 1, 2)"]
       (Ok (VNumber 1))
  /\ evaluatesTo ["if(false, 1, 2)"]
       (Ok (VNumber 2))
  /\ evaluatesTo ["do(define(c, 0), define(n, 0),";
                "   while(c, do(define(n, +(n, 1)), define(c, false))), n)"]
       (Ok (VNumber 1))
  /\ evaluatesTo ["do(define(c, " +:+ quoted "" +:+ "), define(n, 0),";
                "   while(c, do(define(n, +(n, 1)), define(c, false))), n)"]
       (Ok (VNumber 1))
  /\ evaluatesTo ["do(define(c, array()), define(n, 0),";
                "   while(c, do(define(n, +(n, 1)), define(c, false))), n)"]
       (Ok (VNumber 1)).
Proof. by_running. Qed.

(** C7: [while] with a number of arguments other than 2 throws the Syntax
    error.  A turn of its loop evaluates the condition; on the Boolean
    [false] the loop ends with the value [false] in the state the condition
    left, on another value the body is evaluated and the loop goes on from
    the state the body left.  Whenever the form returns a value, the value
    is the Boolean [false]; the loop that counts to 3 returns it after
    three turns. *)
Theorem while_special_form :
  (forall fuel args env st,
     length args <> 2 ->
     evaluate (S fuel) (Apply (Word "while") args) env st
     = (Throw (SyntaxError "Bad number of args to while"), st))
  /\ (forall fuel cond body env st,
        evaluate (S fuel) (Apply (Word "while") [cond; body]) env st
        = SpecialForms.whileLoop fuel (evaluate fuel) cond body env st)
  /\ (forall n ev cond body env st st1,
        ev cond env st = (Ok (VBoolean false), st1) ->
        SpecialForms.whileLoop (S n) ev cond body env st
        = (Ok (VBoolean false), st1))
  /\ (forall n ev cond body env st v st1 w st2,
        ev cond env st = (Ok v, st1) -> v <> VBoolean false ->
        ev body env st1 = (Ok w, st2) ->
        SpecialForms.whileLoop (S n) ev cond body env st
        = SpecialForms.whileLoop n ev cond body env st2)
  /\ (forall fuel args env st v st',
        evaluate fuel (Apply (Word "while") args) env st = (Ok v, st') ->
        v = VBoolean false)
  /\ evaluatesTo ["do(define(i, 0), while(<(i, 3), define(i, +(i, 1))))"]
       (Ok (VBoolean false))
  /\ evaluatesTo ["do(define(i, 0), while(<(i, 3), define(i, +(i, 1))), i)"]
       (Ok (VNumber 3))
  /\ evaluatesTo ["while(false, 7)"]
       (Ok (VBoolean false)).
Proof.
  split; [intros; rewrite evaluate_while; apply form_while_arity; assumption|].
  split; [reflexivity|].
  split; [intros; apply whileLoop_stop; assumption|].
  split; [intros; eapply whileLoop_again; eassumption|].
  split.
  { intros [|fuel] args env st v st'; [discriminate|].
    rewrite evaluate_while.
    destruct args as [|c [|b [|d rest]]]; try discriminate.
    apply whileLoop_returns_false. }
  by_running.
Qed.

(** C9: the text [+(a, 10)] parses to the application of the word [+] to
    the word [a] and the Number 10, in this order. *)
Theorem parse_plus_a_10 :
  parse "+(a, 10)"
  = Ok (Apply (Word "+") [Word "a"; Value (Number 10)]).
Proof. vm_compute. reflexivity. Qed.

(** * Properties of the parser *)

(** ** Separators *)

Lemma takeWhile_length p s : length (takeWhile p s) <= length s.
Proof.
  induction s as [|c s IH]; simpl; [lia|].
  destruct (p c); simpl; lia.
Qed.

Lemma toSkip_le s : forall inComment, toSkip inComment s <= length s.
Proof.
  induction s as [|c s IH]; intros inComment; simpl; [lia|].
  destruct (inComment && negb (Chars.isLineTerminator c));
    [specialize (IH true); lia|].
  destruct (Chars.isSpace c); [specialize (IH false); lia|].
  destruct (Ascii.eqb c "#"); [specialize (IH true); lia|lia].
Qed.

Lemma skipSpace_length s : length (skipSpace s) <= length s.
Proof. unfold skipSpace. rewrite length_drop. lia. Qed.

Lemma lineTerminator_isSpace c :
  Chars.isLineTerminator c = true -> Chars.isSpace c = true.
Proof.
  unfold Chars.isLineTerminator, Chars.isSpace. intros H.
  apply orb_true_iff in H as [H|H]; apply Nat.eqb_eq in H; rewrite H;
    reflexivity.
Qed.

Lemma skipSpace_space c s :
  Chars.isSpace c = true -> skipSpace (c :: s) = skipSpace s.
Proof. intros H. unfold skipSpace. simpl. rewrite H. reflexivity. Qed.

Lemma skipSpace_token c s :
  Chars.isSpace c = false -> Ascii.eqb c "#" = false ->
  skipSpace (c :: s) = c :: s.
Proof. intros H1 H2. unfold skipSpace. simpl. rewrite H1, H2. reflexivity. Qed.

Lemma toSkip_comment body : forall s,
  Forall (fun c => Chars.isLineTerminator c = false) body ->
  toSkip true (body ++ s) = length body + toSkip true s.
Proof.
  induction body as [|c body IH]; intros s H; [reflexivity|].
  apply Forall_cons in H as [Hc H]. cbn [app toSkip length].
  rewrite Hc. simpl. rewrite IH by assumption. reflexivity.
Qed.

Lemma skipSpace_comment body t s :
  Forall (fun c => Chars.isLineTerminator c = false) body ->
  Chars.isLineTerminator t = true ->
  skipSpace ("#"%char :: body ++ t :: s) = skipSpace s.
Proof.
  intros Hb Ht. unfold skipSpace. cbn [toSkip]. simpl andb.
  replace (Chars.isSpace "#") with false by reflexivity.
  replace (Ascii.eqb "#" "#") with true by reflexivity.
  rewrite toSkip_comment by assumption. cbn [toSkip]. rewrite Ht. simpl andb.
  rewrite (lineTerminator_isSpace _ Ht).
  replace (S (length body + S (toSkip false s)))
    with (length ("#"%char :: body ++ [t]) + toSkip false s)
    by (simpl; rewrite length_app; simpl; lia).
  rewrite <- drop_drop.
  replace ("#"%char :: body ++ t :: s) with (("#"%char :: body ++ [t]) ++ s)
    by (simpl; rewrite <- app_assoc; reflexivity).
  rewrite drop_app_length. reflexivity.
Qed.

(** A run of separators: white space characters and comments, each from a
    [#] to the line terminator that ends it, in any order. *)
Inductive Separators : list ascii -> Prop :=
  | sep_none : Separators []
  | sep_space c s :
      Chars.isSpace c = true -> Separators s -> Separators (c :: s)
  | sep_comment body t s :
      Forall (fun c => Chars.isLineTerminator c = false) body ->
      Chars.isLineTerminator t = true ->
      Separators s -> Separators ("#"%char :: body ++ t :: s).

Lemma skipSpace_separators sep s :
  Separators sep -> skipSpace (sep ++ s) = skipSpace s.
Proof.
  induction 1 as [|c sep Hc _ IH|body t sep Hb Ht _ IH]; [reflexivity| |].
  - simpl. rewrite skipSpace_space by assumption. exact IH.
  - simpl. rewrite <- app_assoc. simpl.
    rewrite skipSpace_comment by assumption. exact IH.
Qed.

(** What [skipSpace] leaves is empty or starts with a character that is
    neither white space nor [#]. *)
Definition atToken (s : list ascii) : Prop :=
  match s with
  | [] => True
  | c :: _ => Chars.isSpace c = false /\ Ascii.eqb c "#" = false
  end.

Lemma toSkip_atToken s : forall inComment, atToken (drop (toSkip inComment s) s).
Proof.
  induction s as [|c s IH]; intros inComment; simpl; [exact I|].
  destruct (inComment && negb (Chars.isLineTerminator c)); [apply IH|].
  destruct (Chars.isSpace c) eqn:Hs; [apply IH|].
  destruct (Ascii.eqb c "#") eqn:Hh; [apply IH|].
  simpl. auto.
Qed.

Lemma skipSpace_atToken s : atToken (skipSpace s).
Proof. apply toSkip_atToken. Qed.

Lemma skipSpace_fixed s : atToken s -> skipSpace s = s.
Proof.
  destruct s as [|c s]; [reflexivity|]. intros [H1 H2].
  apply skipSpace_token; assumption.
Qed.

Lemma skipSpace_idempotent s : skipSpace (skipSpace s) = skipSpace s.
Proof. apply skipSpace_fixed, skipSpace_atToken. Qed.

(** ** The three patterns consume at least one character *)

Lemma matchPrimary_length p e len :
  matchPrimary p = Some (e, len) -> 1 <= len <= length p.
Proof.
  unfold matchPrimary.
  destruct (matchString p) as [body|] eqn:Hs.
  { intros [= _ <-]. unfold matchString in Hs.
    destruct p as [|c rest]; [discriminate|].
    destruct (Ascii.eqb c Chars.quote); [|discriminate].
    pose proof (length_drop rest
      (length (takeWhile (fun c => negb (Ascii.eqb c Chars.quote)) rest))) as Hd.
    destruct (drop _ rest) eqn:E in Hs; [discriminate|].
    injection Hs as <-. rewrite E in Hd. simpl in *. lia. }
  destruct (matchNumber p) as [digits|] eqn:Hn.
  { intros [= _ <-]. unfold matchNumber in Hn.
    pose proof (takeWhile_length Chars.isDigit p) as Hl.
    destruct (takeWhile Chars.isDigit p) as [|d ds] eqn:E; [discriminate|].
    destruct (drop _ p) as [|c ?]; [|destruct (Chars.isWordChar c)];
      try discriminate; injection Hn as <-; simpl in *; lia. }
  destruct (matchWord p) as [w|] eqn:Hw; [|discriminate].
  intros [= _ <-]. unfold matchWord in Hw.
  pose proof (takeWhile_length Chars.isNameChar p) as Hl.
  destruct (takeWhile Chars.isNameChar p) as [|d ds] eqn:E; [discriminate|].
  injection Hw as <-. simpl in *. lia.
Qed.

(** ** Fuel *)

Lemma parseExpression_S n s :
  parseExpression (S n) s
  = match matchPrimary (skipSpace s) with
    | Some (expr, len) => parseApply n expr (drop len (skipSpace s))
    | None =>
        Throw (SyntaxError
                 ("Unexected syntax: " +:+ string_of_list_ascii (skipSpace s)))
    end.
Proof. reflexivity. Qed.

Lemma parseApply_S n expr s :
  parseApply (S n) expr s
  = if negb (isChar "(" (head (skipSpace s))) then Ok (expr, skipSpace s)
    else
      match parseArgs n [] (skipSpace (drop 1 (skipSpace s))) with
      | Ok (args, program) => parseApply n (Apply expr args) (drop 1 program)
      | Throw e => Throw e
      | OutOfFuel => OutOfFuel
      | Unmodelled => Unmodelled
      end.
Proof. reflexivity. Qed.

Lemma parseArgs_S n args s :
  parseArgs (S n) args s
  = if negb (isChar ")" (head s)) then
      match parseExpression n s with
      | Ok (arg, rest) =>
          if isChar "," (head (skipSpace rest)) then
            parseArgs n (args ++ [arg]) (skipSpace (drop 1 (skipSpace rest)))
          else if negb (isChar ")" (head (skipSpace rest))) then
            Throw (SyntaxError "Expected ',' or ')'")
          else parseArgs n (args ++ [arg]) (skipSpace rest)
      | Throw e => Throw e
      | OutOfFuel => OutOfFuel
      | Unmodelled => Unmodelled
      end
    else Ok (args, s).
Proof. reflexivity. Qed.

Lemma isChar_head_length c (s : list ascii) :
  isChar c (head s) = true -> 1 <= length s.
Proof. destruct s; simpl; [discriminate|lia]. Qed.

(** What a call leaves of the text is no longer than the text, and shorter
    for [parseExpression]. *)
Lemma parse_shrinks n :
  (forall s e rest,
     parseExpression n s = Ok (e, rest) -> length rest < length s)
  /\ (forall e s e' rest,
        parseApply n e s = Ok (e', rest) -> length rest <= length s)
  /\ (forall args s args' rest,
        parseArgs n args s = Ok (args', rest) -> length rest <= length s).
Proof.
  induction n as [|n (IHe & IHa & IHl)];
    [repeat split; intros; discriminate|].
  split; [|split].
  - intros s e rest. rewrite parseExpression_S.
    pose proof (skipSpace_length s) as Hs.
    destruct (matchPrimary (skipSpace s)) as [[e0 len]|] eqn:Hm; [|discriminate].
    apply matchPrimary_length in Hm. intros H. apply IHa in H.
    rewrite length_drop in H. lia.
  - intros e s e' rest. rewrite parseApply_S.
    pose proof (skipSpace_length s) as Hs.
    destruct (isChar "(" (head (skipSpace s))) eqn:Hh; simpl.
    + destruct (parseArgs n [] (skipSpace (drop 1 (skipSpace s))))
        as [[args p]| | |] eqn:Hl; try discriminate.
      apply IHl in Hl. intros H. apply IHa in H.
      pose proof (skipSpace_length (drop 1 (skipSpace s))) as Hd.
      rewrite !length_drop in *. lia.
    + intros [= _ <-]. lia.
  - intros args s args' rest. rewrite parseArgs_S.
    destruct (isChar ")" (head s)); simpl.
    + intros [= _ <-]. lia.
    + destruct (parseExpression n s) as [[arg r]| | |] eqn:He; try discriminate.
      apply IHe in He. pose proof (skipSpace_length r) as Hr.
      destruct (isChar "," (head (skipSpace r))).
      * intros H. apply IHl in H.
        pose proof (skipSpace_length (drop 1 (skipSpace r))) as Hd.
        rewrite length_drop in *. lia.
      * destruct (isChar ")" (head (skipSpace r))); simpl; [|discriminate].
        intros H. apply IHl in H. lia.
Qed.

(** A call that was not cut off returns the same with one more unit of
    fuel. *)
Lemma parse_fuel_step n :
  (forall s,
     parseExpression n s <> OutOfFuel ->
     parseExpression (S n) s = parseExpression n s)
  /\ (forall e s,
        parseApply n e s <> OutOfFuel -> parseApply (S n) e s = parseApply n e s)
  /\ (forall args s,
        parseArgs n args s <> OutOfFuel ->
        parseArgs (S n) args s = parseArgs n args s).
Proof.
  induction n as [|n (IHe & IHa & IHl)];
    [repeat split; intros; simpl in *; congruence|].
  split; [|split].
  - intros s. rewrite (parseExpression_S (S n)), (parseExpression_S n).
    destruct (matchPrimary (skipSpace s)) as [[e len]|]; [|reflexivity].
    apply IHa.
  - intros e s. rewrite (parseApply_S (S n)), (parseApply_S n).
    destruct (negb (isChar "(" (head (skipSpace s)))); [reflexivity|].
    destruct (parseArgs n [] (skipSpace (drop 1 (skipSpace s))))
      as [[args p]| | |] eqn:Hl; intros H; try congruence;
      rewrite IHl, Hl by (rewrite Hl; discriminate); [|reflexivity..].
    apply IHa, H.
  - intros args s. rewrite (parseArgs_S (S n)), (parseArgs_S n).
    destruct (negb (isChar ")" (head s))); [|reflexivity].
    destruct (parseExpression n s) as [[arg r]| | |] eqn:He; intros H;
      try congruence;
      rewrite IHe, He by (rewrite He; discriminate); [|reflexivity..].
    destruct (isChar "," (head (skipSpace r))); [apply IHl, H|].
    destruct (negb (isChar ")" (head (skipSpace r)))); [reflexivity|].
    apply IHl, H.
Qed.

Lemma parse_fuel_mono n m :
  n <= m ->
  (forall s,
     parseExpression n s <> OutOfFuel ->
     parseExpression m s = parseExpression n s)
  /\ (forall e s,
        parseApply n e s <> OutOfFuel -> parseApply m e s = parseApply n e s)
  /\ (forall args s,
        parseArgs n args s <> OutOfFuel ->
        parseArgs m args s = parseArgs n args s).
Proof.
  induction 1 as [|m Hle (IHe & IHa & IHl)]; [repeat split; reflexivity|].
  destruct (parse_fuel_step m) as (Se & Sa & Sl).
  split; [|split].
  - intros s H. rewrite Se by (rewrite IHe; assumption). apply IHe, H.
  - intros e s H. rewrite Sa by (rewrite IHa; assumption). apply IHa, H.
  - intros args s H. rewrite Sl by (rewrite IHl; assumption). apply IHl, H.
Qed.

(** Three units of fuel for a character are enough. *)
Lemma parse_fuel_enough n :
  (forall s, 3 * length s + 1 <= n -> parseExpression n s <> OutOfFuel)
  /\ (forall e s, 3 * length s + 2 <= n -> parseApply n e s <> OutOfFuel)
  /\ (forall args s, 3 * length s + 3 <= n -> parseArgs n args s <> OutOfFuel).
Proof.
  induction n as [|n (IHe & IHa & IHl)]; [repeat split; intros; lia|].
  split; [|split].
  - intros s Hn. rewrite parseExpression_S.
    pose proof (skipSpace_length s) as Hs.
    destruct (matchPrimary (skipSpace s)) as [[e len]|] eqn:Hm; [|discriminate].
    apply matchPrimary_length in Hm. apply IHa. rewrite length_drop. lia.
  - intros e s Hn. rewrite parseApply_S.
    pose proof (skipSpace_length s) as Hs.
    destruct (isChar "(" (head (skipSpace s))) eqn:Hh; simpl; [|discriminate].
    apply isChar_head_length in Hh.
    pose proof (skipSpace_length (drop 1 (skipSpace s))) as Hd.
    rewrite length_drop in Hd.
    destruct (parseArgs n [] (skipSpace (drop 1 (skipSpace s))))
      as [[args p]| | |] eqn:Hl; try discriminate.
    + apply (proj2 (proj2 (parse_shrinks n))) in Hl.
      apply IHa. rewrite length_drop. lia.
    + exfalso. revert Hl. apply IHl. lia.
  - intros args s Hn. rewrite parseArgs_S.
    destruct (isChar ")" (head s)); simpl; [discriminate|].
    destruct (parseExpression n s) as [[arg r]| | |] eqn:He; try discriminate.
    + apply (proj1 (parse_shrinks n)) in He.
      pose proof (skipSpace_length r) as Hr.
      destruct (isChar "," (head (skipSpace r))).
      * apply IHl.
        pose proof (skipSpace_length (drop 1 (skipSpace r))) as Hd.
        rewrite length_drop in Hd. lia.
      * destruct (isChar ")" (head (skipSpace r))); simpl; [|discriminate].
        apply IHl. lia.
    + exfalso. revert He. apply IHe. lia.
Qed.

(** ** The parser with enough fuel *)

Definition parseExpressionT (s : list ascii) : Result (Expression * list ascii) :=
  parseExpression (3 * length s + 1) s.

Definition parseApplyT (expr : Expression) (s : list ascii)
  : Result (Expression * list ascii) :=
  parseApply (3 * length s + 2) expr s.

Definition parseArgsT (args : list Expression) (s : list ascii)
  : Result (list Expression * list ascii) :=
  parseArgs (3 * length s + 3) args s.

Lemma parseExpression_enough n s :
  3 * length s + 1 <= n -> parseExpression n s = parseExpressionT s.
Proof.
  intros H. apply (parse_fuel_mono _ _ H). apply parse_fuel_enough. lia.
Qed.

Lemma parseApply_enough n e s :
  3 * length s + 2 <= n -> parseApply n e s = parseApplyT e s.
Proof.
  intros H. apply (parse_fuel_mono _ _ H). apply parse_fuel_enough. lia.
Qed.

Lemma parseArgs_enough n args s :
  3 * length s + 3 <= n -> parseArgs n args s = parseArgsT args s.
Proof.
  intros H. apply (parse_fuel_mono _ _ H). apply parse_fuel_enough. lia.
Qed.

Lemma parseExpressionT_eq s :
  parseExpressionT s
  = match matchPrimary (skipSpace s) with
    | Some (expr, len) => parseApplyT expr (drop len (skipSpace s))
    | None =>
        Throw (SyntaxError
                 ("Unexected syntax: " +:+ string_of_list_ascii (skipSpace s)))
    end.
Proof.
  unfold parseExpressionT.
  replace (3 * length s + 1) with (S (3 * length s)) by lia.
  rewrite parseExpression_S. pose proof (skipSpace_length s) as Hs.
  destruct (matchPrimary (skipSpace s)) as [[e len]|] eqn:Hm; [|reflexivity].
  apply matchPrimary_length in Hm. apply parseApply_enough.
  rewrite length_drop. lia.
Qed.

Lemma parseApplyT_eq expr s :
  parseApplyT expr s
  = if negb (isChar "(" (head (skipSpace s))) then Ok (expr, skipSpace s)
    else
      match parseArgsT [] (skipSpace (drop 1 (skipSpace s))) with
      | Ok (args, program) => parseApplyT (Apply expr args) (drop 1 program)
      | Throw e => Throw e
      | OutOfFuel => OutOfFuel
      | Unmodelled => Unmodelled
      end.
Proof.
  unfold parseApplyT at 1.
  replace (3 * length s + 2) with (S (3 * length s + 1)) by lia.
  rewrite parseApply_S. pose proof (skipSpace_length s) as Hs.
  destruct (isChar "(" (head (skipSpace s))) eqn:Hh; simpl; [|reflexivity].
  apply isChar_head_length in Hh.
  pose proof (skipSpace_length (drop 1 (skipSpace s))) as Hd.
  rewrite length_drop in Hd.
  rewrite parseArgs_enough by lia.
  destruct (parseArgsT [] (skipSpace (drop 1 (skipSpace s))))
    as [[args p]| | |] eqn:Hl; try reflexivity.
  apply (proj2 (proj2 (parse_shrinks _))) in Hl.
  apply parseApply_enough. rewrite length_drop. lia.
Qed.

Lemma parseArgsT_eq args s :
  parseArgsT args s
  = if negb (isChar ")" (head s)) then
      match parseExpressionT s with
      | Ok (arg, rest) =>
          if isChar "," (head (skipSpace rest)) then
            parseArgsT (args ++ [arg]) (skipSpace (drop 1 (skipSpace rest)))
          else if negb (isChar ")" (head (skipSpace rest))) then
            Throw (SyntaxError "Expected ',' or ')'")
          else parseArgsT (args ++ [arg]) (skipSpace rest)
      | Throw e => Throw e
      | OutOfFuel => OutOfFuel
      | Unmodelled => Unmodelled
      end
    else Ok (args, s).
Proof.
  unfold parseArgsT at 1.
  replace (3 * length s + 3) with (S (3 * length s + 2)) by lia.
  rewrite parseArgs_S.
  destruct (isChar ")" (head s)); simpl; [reflexivity|].
  rewrite parseExpression_enough by lia.
  destruct (parseExpressionT s) as [[arg r]| | |] eqn:He; try reflexivity.
  apply (proj1 (parse_shrinks _)) in He.
  pose proof (skipSpace_length r) as Hr.
  destruct (isChar "," (head (skipSpace r))).
  - pose proof (skipSpace_length (drop 1 (skipSpace r))) as Hd.
    rewrite length_drop in Hd. apply parseArgs_enough. lia.
  - destruct (isChar ")" (head (skipSpace r))); simpl; [|reflexivity].
    apply parseArgs_enough. lia.
Qed.

Lemma parseChars_eq s :
  parseChars s
  = match parseExpressionT s with
    | Ok (expr, rest) =>
        if 0 <? length (skipSpace rest) then
          Throw (SyntaxError "Unexpected text after program")
        else Ok expr
    | Throw e => Throw e
    | OutOfFuel => OutOfFuel
    | Unmodelled => Unmodelled
    end.
Proof.
  unfold parseChars, parseFuel. rewrite parseExpression_enough by lia.
  reflexivity.
Qed.

(** [parse] is total: the fuel it gives the parser is never used up. *)
Lemma parse_total program : parse program <> OutOfFuel.
Proof.
  unfold parse. rewrite parseChars_eq.
  pose proof (proj1 (parse_fuel_enough _) (list_ascii_of_string program)
                (Nat.le_refl _)) as H.
  fold (parseExpressionT (list_ascii_of_string program)) in H.
  destruct (parseExpressionT (list_ascii_of_string program)) as [[e r]| | |];
    try discriminate; [|congruence].
  destruct (0 <? length (skipSpace r)); discriminate.
Qed.

Lemma parseExpressionT_skipSpace s1 s2 :
  skipSpace s1 = skipSpace s2 -> parseExpressionT s1 = parseExpressionT s2.
Proof. intros H. rewrite !parseExpressionT_eq, H. reflexivity. Qed.

Lemma parseApplyT_skipSpace e s1 s2 :
  skipSpace s1 = skipSpace s2 -> parseApplyT e s1 = parseApplyT e s2.
Proof. intros H. rewrite !(parseApplyT_eq e), H. reflexivity. Qed.

(** C8: a run of separators in front of a text is skipped by [skipSpace],
    so the text parses as it does without them, at the start of the program,
    before the parenthesis of an application and after it. *)
Theorem comments_are_transparent sep s :
  Separators sep ->
  skipSpace (sep ++ s) = skipSpace s
  /\ parseChars (sep ++ s) = parseChars s
  /\ (forall e, parseApplyT e (sep ++ s) = parseApplyT e s)
  /\ (forall e, parseApplyT e ("("%char :: sep ++ s) = parseApplyT e ("("%char :: s)).
Proof.
  intros H. pose proof (skipSpace_separators sep s H) as E.
  split; [exact E|]. split; [|split].
  - rewrite !parseChars_eq, (parseExpressionT_skipSpace _ _ E). reflexivity.
  - intros e. apply parseApplyT_skipSpace, E.
  - intros e. rewrite !(parseApplyT_eq e).
    rewrite !(skipSpace_token "(") by reflexivity. simpl. rewrite !drop_0.
    rewrite E. reflexivity.
Qed.

(** C8 on the text of the claim: the comment [# hello] and its line
    terminator are a run of separators, and the text parses as [x] does, to
    the word [x]. *)
Lemma comments_are_transparent_hello :
  Separators (list_ascii_of_string ("# hello" +:+ nl))
  /\ parse ("# hello" +:+ nl +:+ "x") = parse "x"
  /\ parse "x" = Ok (Word "x").
Proof.
  assert (Hsep : Separators (list_ascii_of_string ("# hello" +:+ nl))).
  { exact (sep_comment (list_ascii_of_string " hello") (ascii_of_nat 10) []
             ltac:(repeat constructor) eq_refl sep_none). }
  split; [exact Hsep|]. split; [|vm_compute; reflexivity].
  exact (proj1 (proj2 (comments_are_transparent
                         (list_ascii_of_string ("# hello" +:+ nl))
                         (list_ascii_of_string "x") Hsep))).
Defined.

(** The second text of the comment test of the source. *)
Lemma comments_between_tokens :
  parse ("a # one" +:+ nl +:+ "    # two " +:+ nl +:+ "()") = Ok (Apply (Word "a") [])
  /\ parse ("f(# first" +:+ nl +:+ " x, # second" +:+ nl +:+ " y # last" +:+ nl +:+ ")")
     = parse "f(x,y)".
Proof. split; vm_compute; reflexivity. Qed.

(** ** Texts of expressions *)

(** The end of the text or one of the characters that end a word. *)
Definition isDelimiter (rest : list ascii) : bool :=
  match rest with
  | [] => true
  | c :: _ => Ascii.eqb c "(" || Ascii.eqb c ")" || Ascii.eqb c ","
  end.

(** [a] is a text of the expression [t]: in front of a delimiter,
    [parseExpression] reads [a] as [t] and goes on to the application
    suffix, which is how it reads an operator and an argument. *)
Definition ExprText (a : list ascii) (t : Expression) : Prop :=
  forall rest, isDelimiter rest = true ->
    parseExpressionT (a ++ rest) = parseApplyT t rest.

(** Texts between commas. *)
Fixpoint commaSeparated (texts : list (list ascii)) : list ascii :=
  match texts with
  | [] => []
  | [a] => a
  | a :: rest => a ++ ","%char :: commaSeparated rest
  end.

Lemma delimiter_cases c rest :
  isDelimiter (c :: rest) = true -> c = "("%char \/ c = ")"%char \/ c = ","%char.
Proof.
  simpl. intros H. apply orb_true_iff in H as [H|H];
    [apply orb_true_iff in H as [H|H]|]; apply Ascii.eqb_eq in H; auto.
Qed.

Lemma takeWhile_stop p w rest :
  forallb p w = true ->
  match rest with [] => True | c :: _ => p c = false end ->
  takeWhile p (w ++ rest) = w.
Proof.
  intros Hw Hr. induction w as [|c w IH]; simpl in *.
  - destruct rest as [|c rest]; [reflexivity|]. simpl. rewrite Hr. reflexivity.
  - apply andb_true_iff in Hw as [Hc Hw]. rewrite Hc, IH by assumption.
    reflexivity.
Qed.

Lemma delimiter_stops (p : ascii -> bool) rest :
  p "("%char = false -> p ")"%char = false -> p ","%char = false ->
  isDelimiter rest = true ->
  match rest with [] => True | c :: _ => p c = false end.
Proof.
  intros H1 H2 H3 H. destruct rest as [|c rest]; [exact I|].
  destruct (delimiter_cases _ _ H) as [->|[->| ->]]; assumption.
Qed.

Lemma delimiter_atToken rest : isDelimiter rest = true -> atToken rest.
Proof.
  intros H. destruct rest as [|c rest]; [exact I|].
  destruct (delimiter_cases _ _ H) as [->|[->| ->]]; split; reflexivity.
Qed.

(** A word: name characters, the first of them neither a digit, nor [#]. *)
Lemma ExprText_word c w :
  forallb Chars.isNameChar (c :: w) = true ->
  Chars.isDigit c = false -> Ascii.eqb c "#" = false ->
  ExprText (c :: w) (Word (string_of_list_ascii (c :: w))).
Proof.
  intros Hw Hd Hh rest Hr. rewrite parseExpressionT_eq.
  pose proof Hw as Hw'. cbn [forallb] in Hw'.
  apply andb_true_iff in Hw' as [Hc _].
  assert (Hs : Chars.isSpace c = false).
  { unfold Chars.isNameChar in Hc. apply negb_true_iff in Hc.
    do 4 (apply orb_false_iff in Hc as [Hc _]). exact Hc. }
  assert (Hq : Ascii.eqb c Chars.quote = false).
  { unfold Chars.isNameChar in Hc. apply negb_true_iff in Hc.
    apply orb_false_iff in Hc as [_ Hc]. exact Hc. }
  cbn [app]. rewrite skipSpace_token by assumption.
  unfold matchPrimary, matchString. rewrite Hq.
  unfold matchNumber. cbn [takeWhile]. rewrite Hd.
  unfold matchWord.
  change (c :: w ++ rest) with ((c :: w) ++ rest).
  rewrite (takeWhile_stop Chars.isNameChar (c :: w) rest Hw)
    by (apply delimiter_stops; [reflexivity..|assumption]).
  rewrite drop_app_length. reflexivity.
Qed.

(** A number: digits. *)
Lemma ExprText_number c w :
  forallb Chars.isDigit (c :: w) = true ->
  ExprText (c :: w) (Value (Number (Host.NumberOfDigits (c :: w)))).
Proof.
  intros Hw rest Hr. rewrite parseExpressionT_eq.
  pose proof Hw as Hw'. cbn [forallb] in Hw'.
  apply andb_true_iff in Hw' as [Hc _].
  assert (Hcode : 48 <= Chars.code c <= 57).
  { unfold Chars.isDigit in Hc. apply andb_true_iff in Hc as [H1 H2].
    apply Nat.leb_le in H1, H2. lia. }
  assert (Hs : Chars.isSpace c = false).
  { unfold Chars.isSpace.
    repeat (apply orb_false_iff; split);
      [apply andb_false_iff; right; apply Nat.leb_gt; lia
      |apply Nat.eqb_neq; lia..]. }
  assert (Hh : Ascii.eqb c "#" = false).
  { apply Ascii.eqb_neq. intros ->. vm_compute in Hcode. lia. }
  assert (Hq : Ascii.eqb c Chars.quote = false).
  { apply Ascii.eqb_neq. intros ->. vm_compute in Hcode. lia. }
  cbn [app]. rewrite skipSpace_token by assumption.
  unfold matchPrimary, matchString. rewrite Hq.
  unfold matchNumber.
  change (c :: w ++ rest) with ((c :: w) ++ rest).
  rewrite (takeWhile_stop Chars.isDigit (c :: w) rest Hw)
    by (apply delimiter_stops; [reflexivity..|assumption]).
  rewrite drop_app_length.
  pose proof (delimiter_stops Chars.isWordChar rest eq_refl eq_refl eq_refl Hr)
    as Hword.
  destruct rest as [|d rest]; [|rewrite Hword]; cbv beta iota;
    rewrite drop_app_length; reflexivity.
Qed.

(** A quoted text: characters other than the double quote between two
    double quotes. *)
Lemma ExprText_string body :
  forallb (fun c => negb (Ascii.eqb c Chars.quote)) body = true ->
  ExprText (Chars.quote :: body ++ [Chars.quote])
    (Value (Text (string_of_list_ascii body))).
Proof.
  intros Hb rest Hr. rewrite parseExpressionT_eq.
  cbn [app]. rewrite (skipSpace_token Chars.quote) by reflexivity.
  unfold matchPrimary, matchString.
  replace (Ascii.eqb Chars.quote Chars.quote) with true by reflexivity.
  rewrite <- app_assoc. cbn [app].
  rewrite (takeWhile_stop _ body (Chars.quote :: rest) Hb) by reflexivity.
  rewrite drop_app_length.
  replace (length body + 2) with (S (length body + 1)) by lia.
  cbn [drop].
  replace (body ++ Chars.quote :: rest) with ((body ++ [Chars.quote]) ++ rest)
    by (rewrite <- app_assoc; reflexivity).
  replace (length body + 1) with (length (body ++ [Chars.quote]))
    by (rewrite length_app; reflexivity).
  rewrite drop_app_length. reflexivity.
Qed.

(** Separators in front of a text of an expression. *)
Lemma ExprText_separators sep a t :
  Separators sep -> ExprText a t -> ExprText (sep ++ a) t.
Proof.
  intros Hsep Ha rest Hr. rewrite <- (Ha rest Hr), <- app_assoc.
  apply parseExpressionT_skipSpace, skipSpace_separators, Hsep.
Qed.

(** In front of a comma, a closing parenthesis or the end of the text the
    expression read so far is returned. *)
Lemma parseApplyT_end t rest :
  atToken rest -> isChar "(" (head rest) = false ->
  parseApplyT t rest = Ok (t, rest).
Proof.
  intros Ha Hh. rewrite parseApplyT_eq, (skipSpace_fixed _ Ha), Hh.
  reflexivity.
Qed.

Lemma parseExpressionT_closing s :
  atToken s -> isChar ")" (head s) = true ->
  exists message, parseExpressionT s = Throw (SyntaxError message).
Proof.
  intros Ha Hh. rewrite parseExpressionT_eq, (skipSpace_fixed _ Ha).
  destruct s as [|c s]; [discriminate|]. simpl in Hh.
  apply Ascii.eqb_eq in Hh as ->. eexists. reflexivity.
Qed.

(** The closing of an argument list: the parenthesis, or a comma and
    separators and then the parenthesis. *)
Definition closing (trailingComma : bool) (sep rest : list ascii) : list ascii :=
  if trailingComma then ","%char :: sep ++ ")"%char :: rest
  else ")"%char :: rest.

(** The loop of [parseApply] on the texts of the arguments. *)
Lemma parseArgsT_texts trailingComma sep rest :
  Separators sep ->
  forall more a t trees args,
    ExprText a t -> Forall2 ExprText more trees ->
    parseArgsT args
      (skipSpace (commaSeparated (a :: more) ++ closing trailingComma sep rest))
    = Ok (args ++ t :: trees, ")"%char :: rest).
Proof.
  intros Hsep.
  assert (Hstep : forall a t tail args,
    ExprText a t ->
    isDelimiter tail = true -> isChar "(" (head tail) = false ->
    parseArgsT args (skipSpace (a ++ tail))
    = if isChar "," (head tail) then
        parseArgsT (args ++ [t]) (skipSpace (drop 1 tail))
      else if negb (isChar ")" (head tail)) then
        Throw (SyntaxError "Expected ',' or ')'")
      else parseArgsT (args ++ [t]) tail).
  { intros a t tail args Ha Hd Hp.
    pose proof (delimiter_atToken _ Hd) as Hat.
    assert (He : parseExpressionT (skipSpace (a ++ tail)) = Ok (t, tail)).
    { rewrite (parseExpressionT_skipSpace _ (a ++ tail))
        by apply skipSpace_idempotent.
      rewrite (Ha tail Hd). apply parseApplyT_end; assumption. }
    rewrite parseArgsT_eq.
    destruct (isChar ")" (head (skipSpace (a ++ tail)))) eqn:Hc.
    - destruct (parseExpressionT_closing _ (skipSpace_atToken _) Hc) as [m Hm].
      congruence.
    - simpl. rewrite He, (skipSpace_fixed _ Hat). reflexivity. }
  induction more as [|b more IH]; intros a t trees args Ha Hmore.
  - apply Forall2_nil_inv_l in Hmore as ->. cbn [commaSeparated].
    destruct trailingComma; unfold closing.
    + rewrite (Hstep a t _ args Ha) by reflexivity. cbn [head isChar].
      replace (Ascii.eqb "," ",") with true by reflexivity.
      cbn [drop]. rewrite drop_0, (skipSpace_separators sep _ Hsep).
      rewrite (skipSpace_token ")") by reflexivity.
      rewrite parseArgsT_eq. reflexivity.
    + rewrite (Hstep a t _ args Ha) by reflexivity. cbn [head isChar].
      replace (Ascii.eqb ")" ",") with false by reflexivity.
      replace (Ascii.eqb ")" ")") with true by reflexivity. cbn [negb].
      rewrite parseArgsT_eq. reflexivity.
  - apply Forall2_cons_inv_l in Hmore as (u & trees' & Hb & Hmore & ->).
    change (commaSeparated (a :: b :: more))
      with (a ++ ","%char :: commaSeparated (b :: more)).
    rewrite <- app_assoc. cbn [app].
    rewrite (Hstep a t _ args Ha) by reflexivity. cbn [head isChar].
    replace (Ascii.eqb "," ",") with true by reflexivity.
    cbn [drop]. rewrite drop_0.
    rewrite (IH b u trees' (args ++ [t]) Hb Hmore).
    rewrite <- app_assoc. reflexivity.
Qed.

(** An application is a text of an expression: an operator text, the
    parenthesis, argument texts between commas and the closing. *)
Lemma ExprText_apply trailingComma sep e te a t more trees :
  Separators sep ->
  ExprText e te -> ExprText a t -> Forall2 ExprText more trees ->
  ExprText
    (e ++ "("%char :: commaSeparated (a :: more) ++ closing trailingComma sep [])
    (Apply te (t :: trees)).
Proof.
  intros Hsep He Ha Hmore rest Hr.
  replace ((e ++ "("%char :: commaSeparated (a :: more)
              ++ closing trailingComma sep []) ++ rest)
    with (e ++ "("%char :: commaSeparated (a :: more)
            ++ closing trailingComma sep rest)
    by (destruct trailingComma; unfold closing;
        repeat (rewrite <- ?app_assoc; cbn [app]); reflexivity).
  rewrite (He ("("%char :: commaSeparated (a :: more)
                  ++ closing trailingComma sep rest) eq_refl).
  rewrite parseApplyT_eq.
  rewrite (skipSpace_token "(") by reflexivity. cbn [head isChar].
  replace (Ascii.eqb "(" "(") with true by reflexivity. cbn [negb drop].
  rewrite drop_0.
  rewrite (parseArgsT_texts trailingComma sep rest Hsep more a t trees []
             Ha Hmore).
  reflexivity.
Qed.

Lemma ExprText_parse a t : ExprText a t -> parseChars a = Ok t.
Proof.
  intros Ha. rewrite parseChars_eq. specialize (Ha [] eq_refl).
  rewrite app_nil_r in Ha. rewrite Ha.
  rewrite parseApplyT_end by (exact I || reflexivity). reflexivity.
Qed.

(** C10: for an operator text [e] and argument texts [a], [more] (at least
    one argument), the program [e(a,more...,)] with a comma, and any
    separators, before the closing parenthesis parses, and to the same tree
    as [e(a,more...)] without it: the application of the operator to the
    arguments in their order. *)
Theorem trailing_comma_accepted sep e te a t more trees :
  Separators sep ->
  ExprText e te -> ExprText a t -> Forall2 ExprText more trees ->
  parseChars (e ++ "("%char :: commaSeparated (a :: more)
                ++ ","%char :: sep ++ [")"%char])
  = Ok (Apply te (t :: trees))
  /\ parseChars (e ++ "("%char :: commaSeparated (a :: more) ++ [")"%char])
     = Ok (Apply te (t :: trees)).
Proof.
  intros Hsep He Ha Hmore. split; apply ExprText_parse.
  - apply (ExprText_apply true sep); assumption.
  - apply (ExprText_apply false sep); assumption.
Qed.

(** C10 on the text [f(x, 10,)]: [f] and [x] are words, [10] after a space
    is a number, and the text parses as [f(x, 10)] does. *)
Lemma trailing_comma_accepted_f_x_10 :
  ExprText (list_ascii_of_string "f") (Word "f")
  /\ ExprText (list_ascii_of_string "x") (Word "x")
  /\ Forall2 ExprText [list_ascii_of_string " 10"] [Value (Number 10)]
  /\ parse "f(x, 10,)" = Ok (Apply (Word "f") [Word "x"; Value (Number 10)])
  /\ parse "f(x, 10)" = Ok (Apply (Word "f") [Word "x"; Value (Number 10)]).
Proof.
  assert (Hf : ExprText (list_ascii_of_string "f") (Word "f"))
    by (apply (ExprText_word "f" []); reflexivity).
  assert (Hx : ExprText (list_ascii_of_string "x") (Word "x"))
    by (apply (ExprText_word "x" []); reflexivity).
  assert (Hn : Forall2 ExprText [list_ascii_of_string " 10"] [Value (Number 10)]).
  { constructor; [|constructor].
    apply (ExprText_separators [" "%char] (list_ascii_of_string "10")).
    - apply sep_space; [reflexivity|apply sep_none].
    - exact (ExprText_number "1" ["0"%char] eq_refl). }
  split; [exact Hf|]. split; [exact Hx|]. split; [exact Hn|].
  exact (trailing_comma_accepted [] (list_ascii_of_string "f") (Word "f")
           (list_ascii_of_string "x") (Word "x")
           [list_ascii_of_string " 10"] [Value (Number 10)]
           sep_none Hf Hx Hn).
Defined.

(** The comma is accepted once and after an argument only. *)
Lemma trailing_comma_limits :
  parse "f(,)" = Throw (SyntaxError "Unexected syntax: ,)")
  /\ parse "f(x,,)" = Throw (SyntaxError "Unexected syntax: ,)")
  /\ parse "f(x,)" = parse "f(x)"
  /\ parse "f(g(x,),)(y,)" = parse "f(g(x))(y)".
Proof. repeat split; vm_compute; reflexivity. Qed.

(** * Further properties of the parser *)

(** ** What the parser returns *)



(** What a call leaves is the end of its text, at a token. *)
Lemma parse_rest n :
  (forall s e rest,
     parseExpression n s = Ok (e, rest) -> rest `suffix_of` s /\ atToken rest)
  /\ (forall e s e' rest,
        parseApply n e s = Ok (e', rest) -> rest `suffix_of` s /\ atToken rest)
  /\ (forall args s args' rest,
        parseArgs n args s = Ok (args', rest) ->
        rest `suffix_of` s /\ isChar ")" (head rest) = true).
Proof.
  induction n as [|n (IHe & IHa & IHl)];
    [repeat split; intros; discriminate|].
  assert (Hskip : forall s, skipSpace s `suffix_of` s)
    by (intros s; apply suffix_drop).
  split; [|split].
  - intros s e rest. rewrite parseExpression_S.
    destruct (matchPrimary (skipSpace s)) as [[e0 len]|]; [|discriminate].
    intros H. apply IHa in H as [H1 H2]. split; [|exact H2].
    etrans; [exact H1|]. etrans; [apply suffix_drop|apply Hskip].
  - intros e s e' rest. rewrite parseApply_S.
    destruct (isChar "(" (head (skipSpace s))); simpl.
    + destruct (parseArgs n [] (skipSpace (drop 1 (skipSpace s))))
        as [[args p]| | |] eqn:Hl; try discriminate.
      apply IHl in Hl as [Hl _]. intros H. apply IHa in H as [H1 H2].
      split; [|exact H2].
      etrans; [exact H1|]. etrans; [apply suffix_drop|].
      etrans; [exact Hl|]. etrans; [apply Hskip|].
      etrans; [apply suffix_drop|apply Hskip].
    + intros [= _ <-]. split; [apply Hskip|apply skipSpace_atToken].
  - intros args s args' rest. rewrite parseArgs_S.
    destruct (isChar ")" (head s)) eqn:Hh; simpl.
    + intros [= _ <-]. split; [reflexivity|exact Hh].
    + destruct (parseExpression n s) as [[arg r]| | |] eqn:He; try discriminate.
      apply IHe in He as [He _].
      destruct (isChar "," (head (skipSpace r))).
      * intros H. apply IHl in H as [H1 H2]. split; [|exact H2].
        etrans; [exact H1|]. etrans; [apply Hskip|].
        etrans; [apply suffix_drop|]. etrans; [apply Hskip|exact He].
      * destruct (isChar ")" (head (skipSpace r))); simpl; [|discriminate].
        intros H. apply IHl in H as [H1 H2]. split; [|exact H2].
        etrans; [exact H1|]. etrans; [apply Hskip|exact He].
Qed.

(** X2: when [parseExpression] returns, the rest it returns is an end of
    the program text, shorter than the text, and starts at a token: it is
    empty or its first character is neither white space nor [#], so that
    skipping separators again changes nothing. *)
Theorem parseExpression_rest fuel program expr rest :
  parseExpression fuel program = Ok (expr, rest) ->
  rest `suffix_of` program
  /\ length rest < length program
  /\ skipSpace rest = rest.
Proof.
  intros H. destruct (proj1 (parse_rest fuel) _ _ _ H) as [H1 H2].
  split; [exact H1|]. split.
  - apply (proj1 (parse_shrinks fuel) _ _ _ H).
  - apply skipSpace_fixed, H2.
Qed.

(** X2 on the text [a b]: the word [a] is read and [b] is left. *)
Lemma parseExpression_rest_a_b :
  parseExpression 5 (list_ascii_of_string " a b")
  = Ok (Word "a", list_ascii_of_string "b")
  /\ list_ascii_of_string "b" `suffix_of` list_ascii_of_string " a b"
  /\ skipSpace (list_ascii_of_string "b") = list_ascii_of_string "b".
Proof.
  split; [reflexivity|].
  pose proof (parseExpression_rest 5 (list_ascii_of_string " a b") (Word "a")
                (list_ascii_of_string "b") eq_refl) as (H1 & _ & H3).
  split; assumption.
Defined.

(** ** Texts the parser refuses *)

(** X3: a text of separators only, the empty text among them, is refused
    with the Syntax error of [parseExpression] on the empty rest. *)
Theorem nothing_to_parse program :
  skipSpace program = [] ->
  parseChars program = Throw (SyntaxError "Unexected syntax: ").
Proof.
  intros H. rewrite parseChars_eq, parseExpressionT_eq, H. reflexivity.
Qed.

Lemma nothing_to_parse_comment :
  skipSpace (list_ascii_of_string "  # nothing here") = []
  /\ parse "  # nothing here" = Throw (SyntaxError "Unexected syntax: ")
  /\ parse "" = Throw (SyntaxError "Unexected syntax: ").
Proof.
  split; [reflexivity|]. split.
  - exact (nothing_to_parse (list_ascii_of_string "  # nothing here") eq_refl).
  - reflexivity.
Defined.

Lemma parseExpressionT_text a t rest :
  ExprText a t ->
  isDelimiter rest = true -> isChar "(" (head rest) = false ->
  parseExpressionT (a ++ rest) = Ok (t, rest).
Proof.
  intros Ha Hd Hp. rewrite (Ha rest Hd).
  apply parseApplyT_end; [apply delimiter_atToken, Hd|exact Hp].
Qed.

(** X4: a text of an expression followed by a closing parenthesis or a
    comma that no application opened is refused: text is left after the
    program. *)
Theorem stray_delimiter_refused a t c rest :
  ExprText a t -> c = ")"%char \/ c = ","%char ->
  parseChars (a ++ c :: rest)
  = Throw (SyntaxError "Unexpected text after program").
Proof.
  intros Ha Hc. rewrite parseChars_eq.
  rewrite (parseExpressionT_text a t (c :: rest) Ha)
    by (destruct Hc as [-> | ->]; reflexivity).
  rewrite skipSpace_fixed
    by (apply delimiter_atToken; destruct Hc as [-> | ->]; reflexivity).
  reflexivity.
Qed.

Lemma stray_delimiter_refused_x :
  ExprText (list_ascii_of_string "f(x)") (Apply (Word "f") [Word "x"])
  /\ parse "f(x))" = Throw (SyntaxError "Unexpected text after program").
Proof.
  assert (H : ExprText (list_ascii_of_string "f(x)") (Apply (Word "f") [Word "x"])).
  { apply (ExprText_apply false [] (list_ascii_of_string "f") (Word "f")
             (list_ascii_of_string "x") (Word "x") [] []);
      [apply sep_none|apply (ExprText_word "f" []); reflexivity
      |apply (ExprText_word "x" []); reflexivity|constructor]. }
  split; [exact H|].
  exact (stray_delimiter_refused (list_ascii_of_string "f(x)") _ ")" []
           H (or_introl eq_refl)).
Defined.

(** X5: an argument list that the text ends in is refused: after the
    opening parenthesis an expression is expected, and after an argument a
    comma or the closing parenthesis. *)
Theorem unclosed_arguments_refused e te a t :
  ExprText e te -> ExprText a t ->
  parseChars (e ++ ["("%char]) = Throw (SyntaxError "Unexected syntax: ")
  /\ parseChars (e ++ "("%char :: a)
     = Throw (SyntaxError "Expected ',' or ')'")
  /\ parseChars (e ++ "("%char :: a ++ [","%char])
     = Throw (SyntaxError "Unexected syntax: ").
Proof.
  intros He Ha.
  assert (Harg : forall tail args,
    isDelimiter tail = true -> isChar "(" (head tail) = false ->
    parseArgsT args (skipSpace (a ++ tail))
    = if isChar "," (head tail) then
        parseArgsT (args ++ [t]) (skipSpace (drop 1 tail))
      else if negb (isChar ")" (head tail)) then
        Throw (SyntaxError "Expected ',' or ')'")
      else parseArgsT (args ++ [t]) tail).
  { intros tail args Hd Hp.
    assert (Hx : parseExpressionT (skipSpace (a ++ tail)) = Ok (t, tail)).
    { rewrite (parseExpressionT_skipSpace _ (a ++ tail))
        by apply skipSpace_idempotent.
      apply parseExpressionT_text; assumption. }
    rewrite parseArgsT_eq.
    destruct (isChar ")" (head (skipSpace (a ++ tail)))) eqn:Hc.
    - destruct (parseExpressionT_closing _ (skipSpace_atToken _) Hc) as [m Hm].
      congruence.
    - simpl. rewrite Hx, (skipSpace_fixed _ (delimiter_atToken _ Hd)).
      reflexivity. }
  assert (Hopen : forall tail,
    parseChars (e ++ "("%char :: tail)
    = match parseArgsT [] (skipSpace tail) with
      | Ok (args, program) =>
          match parseApplyT (Apply te args) (drop 1 program) with
          | Ok (expr, rest) =>
              if 0 <? length (skipSpace rest) then
                Throw (SyntaxError "Unexpected text after program")
              else Ok expr
          | Throw err => Throw err
          | OutOfFuel => OutOfFuel
          | Unmodelled => Unmodelled
          end
      | Throw err => Throw err
      | OutOfFuel => OutOfFuel
      | Unmodelled => Unmodelled
      end).
  { intros tail. rewrite parseChars_eq, (He ("("%char :: tail) eq_refl).
    rewrite parseApplyT_eq. rewrite (skipSpace_token "(") by reflexivity.
    cbn [head isChar].
    replace (Ascii.eqb "(" "(") with true by reflexivity. cbn [negb drop].
    rewrite drop_0.
    destruct (parseArgsT [] (skipSpace tail)) as [[args p]| | |]; reflexivity. }
  split; [|split].
  - rewrite Hopen. cbn [skipSpace toSkip drop].
    rewrite parseArgsT_eq, parseExpressionT_eq. reflexivity.
  - rewrite Hopen. rewrite <- (app_nil_r a).
    rewrite (Harg [] []) by reflexivity. reflexivity.
  - rewrite Hopen. rewrite (Harg [","%char] []) by reflexivity.
    cbn [head isChar]. replace (Ascii.eqb "," ",") with true by reflexivity.
    cbn [drop skipSpace toSkip].
    rewrite parseArgsT_eq, parseExpressionT_eq. reflexivity.
Qed.

Lemma unclosed_arguments_refused_f_x :
  ExprText (list_ascii_of_string "f") (Word "f")
  /\ ExprText (list_ascii_of_string "x") (Word "x")
  /\ parse "f(" = Throw (SyntaxError "Unexected syntax: ")
  /\ parse "f(x" = Throw (SyntaxError "Expected ',' or ')'")
  /\ parse "f(x," = Throw (SyntaxError "Unexected syntax: ").
Proof.
  assert (Hf : ExprText (list_ascii_of_string "f") (Word "f"))
    by (apply (ExprText_word "f" []); reflexivity).
  assert (Hx : ExprText (list_ascii_of_string "x") (Word "x"))
    by (apply (ExprText_word "x" []); reflexivity).
  split; [exact Hf|]. split; [exact Hx|].
  exact (unclosed_arguments_refused (list_ascii_of_string "f") (Word "f")
           (list_ascii_of_string "x") (Word "x") Hf Hx).
Defined.

(** X6: a double quote that no second double quote closes is refused,
    whatever follows it: no alternative of [parseExpression] matches, and
    the error carries the text from the quote on. *)
Theorem unterminated_text_refused body :
  forallb (fun c => negb (Ascii.eqb c Chars.quote)) body = true ->
  parseChars (Chars.quote :: body)
  = Throw (SyntaxError
             ("Unexected syntax: " +:+ string_of_list_ascii (Chars.quote :: body))).
Proof.
  intros Hb. rewrite parseChars_eq, parseExpressionT_eq.
  rewrite (skipSpace_token Chars.quote) by reflexivity.
  unfold matchPrimary, matchString.
  replace (Ascii.eqb Chars.quote Chars.quote) with true by reflexivity.
  rewrite <- (app_nil_r body) at 1 2.
  rewrite (takeWhile_stop _ body [] Hb I), drop_app_length.
  reflexivity.
Qed.

Lemma unterminated_text_refused_abc :
  forallb (fun c => negb (Ascii.eqb c Chars.quote))
    (list_ascii_of_string "abc)") = true
  /\ parseChars (Chars.quote :: list_ascii_of_string "abc)")
     = Throw (SyntaxError
                ("Unexected syntax: " +:+ String Chars.quote "abc)")).
Proof.
  split; [reflexivity|].
  exact (unterminated_text_refused (list_ascii_of_string "abc)") eq_refl).
Defined.

(** ** Literals, words and applications *)

(** X7: a quoted text parses to the characters between the quotes as they
    are, backslashes and line ends included, and a run of digits to the
    Number of its decimal value. *)
Theorem literals_parse_to_their_value :
  (forall body,
     forallb (fun c => negb (Ascii.eqb c Chars.quote)) body = true ->
     parseChars (Chars.quote :: body ++ [Chars.quote])
     = Ok (Value (Text (string_of_list_ascii body))))
  /\ (forall d digits,
        forallb Chars.isDigit (d :: digits) = true ->
        parseChars (d :: digits)
        = Ok (Value (Number (Host.floatOfZ (Host.decimalValue (d :: digits)))))).
Proof.
  split.
  - intros body Hb. apply ExprText_parse, ExprText_string, Hb.
  - intros d digits Hd. apply ExprText_parse.
    apply (ExprText_number d digits Hd).
Qed.

Lemma digit_isNameChar c : Chars.isDigit c = true -> Chars.isNameChar c = true.
Proof.
  intros Hc. unfold Chars.isDigit in Hc. apply andb_true_iff in Hc as [H1 H2].
  apply Nat.leb_le in H1, H2.
  unfold Chars.isNameChar, Chars.isSpace. apply negb_true_iff.
  repeat (apply orb_false_iff; split);
    first [apply andb_false_iff; right; apply Nat.leb_gt; lia
          |apply Nat.eqb_neq; lia
          |apply Ascii.eqb_neq; intros ->; vm_compute in H1, H2; lia].
Qed.

Lemma takeWhile_all p w :
  forallb p w = true -> forall rest, takeWhile p (w ++ rest) = w ++ takeWhile p rest.
Proof.
  intros Hw rest. induction w as [|c w IH]; [reflexivity|].
  simpl in *. apply andb_true_iff in Hw as [Hc Hw].
  rewrite Hc, IH by assumption. reflexivity.
Qed.

(** X8: digits that a letter or an underscore follows are not a number:
    the word boundary after the digits fails, and the whole run of name
    characters is one word. *)
Theorem digits_then_letter_is_a_word d digits c w :
  forallb Chars.isDigit (d :: digits) = true ->
  Chars.isWordChar c = true -> Chars.isDigit c = false ->
  forallb Chars.isNameChar (c :: w) = true ->
  parseChars ((d :: digits) ++ c :: w)
  = Ok (Word (string_of_list_ascii ((d :: digits) ++ c :: w))).
Proof.
  intros Hd Hc Hcd Hw. apply ExprText_parse. intros rest Hr.
  rewrite parseExpressionT_eq.
  assert (Hname : forallb Chars.isNameChar ((d :: digits) ++ c :: w) = true).
  { rewrite forallb_app. apply andb_true_iff. split; [|exact Hw].
    apply forallb_forall. intros x Hx.
    apply digit_isNameChar. revert x Hx. apply forallb_forall, Hd. }
  pose proof Hd as Hd'. cbn [forallb] in Hd'.
  apply andb_true_iff in Hd' as [Hd1 _].
  pose proof (digit_isNameChar d Hd1) as Hn.
  assert (Hs : Chars.isSpace d = false).
  { unfold Chars.isNameChar in Hn. apply negb_true_iff in Hn.
    do 4 (apply orb_false_iff in Hn as [Hn _]). exact Hn. }
  assert (Hq : Ascii.eqb d Chars.quote = false).
  { unfold Chars.isNameChar in Hn. apply negb_true_iff in Hn.
    apply orb_false_iff in Hn as [_ Hn]. exact Hn. }
  assert (Hh : Ascii.eqb d "#" = false).
  { apply Ascii.eqb_neq. intros ->. discriminate. }
  assert (E : ((d :: digits) ++ c :: w) ++ rest
              = (d :: digits) ++ (c :: w) ++ rest)
    by (rewrite <- app_assoc; reflexivity).
  rewrite E. cbn [app]. rewrite skipSpace_token by assumption.
  unfold matchPrimary, matchString. rewrite Hq.
  unfold matchNumber.
  change (d :: digits ++ c :: w ++ rest)
    with ((d :: digits) ++ (c :: w ++ rest)).
  rewrite (takeWhile_stop Chars.isDigit (d :: digits) (c :: w ++ rest) Hd Hcd).
  rewrite drop_app_length, Hc.
  unfold matchWord.
  change (c :: w ++ rest) with ((c :: w) ++ rest). rewrite <- E.
  rewrite (takeWhile_stop Chars.isNameChar _ rest Hname)
    by (apply delimiter_stops; [reflexivity..|assumption]).
  cbn [app]. cbv beta iota.
  change (d :: (digits ++ c :: w) ++ rest)
    with ((d :: digits ++ c :: w) ++ rest).
  rewrite drop_app_length. reflexivity.
Qed.

Lemma digits_then_letter_is_a_word_10a :
  forallb Chars.isDigit (list_ascii_of_string "10") = true
  /\ parse "10a" = Ok (Word "10a")
  /\ parse "10" = Ok (Value (Number 10)).
Proof.
  split; [reflexivity|]. split; [|reflexivity].
  exact (digits_then_letter_is_a_word "1" ["0"%char] "a" []
           eq_refl eq_refl eq_refl eq_refl).
Defined.

(** An empty argument list, with any separators in it. *)
Lemma ExprText_apply_empty sep e te :
  Separators sep -> ExprText e te ->
  ExprText (e ++ "("%char :: sep ++ [")"%char]) (Apply te []).
Proof.
  intros Hsep He rest Hr.
  replace ((e ++ "("%char :: sep ++ [")"%char]) ++ rest)
    with (e ++ "("%char :: sep ++ ")"%char :: rest)
    by (repeat (rewrite <- ?app_assoc; cbn [app]); reflexivity).
  rewrite (He ("("%char :: sep ++ ")"%char :: rest) eq_refl).
  rewrite parseApplyT_eq.
  rewrite (skipSpace_token "(") by reflexivity. cbn [head isChar].
  replace (Ascii.eqb "(" "(") with true by reflexivity. cbn [negb drop].
  rewrite drop_0, (skipSpace_separators sep _ Hsep).
  rewrite (skipSpace_token ")") by reflexivity.
  rewrite parseArgsT_eq. reflexivity.
Qed.

(** X9: application texts compose.  An operator text followed by [()] is
    the application to no argument, and an application followed by another
    argument list is the application of the application, as in [f(a)(b)]. *)
Theorem applications_chain e te a ta b tb :
  ExprText e te -> ExprText a ta -> ExprText b tb ->
  parseChars (e ++ list_ascii_of_string "()") = Ok (Apply te [])
  /\ parseChars ((e ++ "("%char :: a ++ [")"%char]) ++ "("%char :: b ++ [")"%char])
     = Ok (Apply (Apply te [ta]) [tb])
  /\ parseChars ((e ++ list_ascii_of_string "()") ++ "("%char :: b ++ [")"%char])
     = Ok (Apply (Apply te []) [tb]).
Proof.
  intros He Ha Hb.
  pose proof (ExprText_apply_empty [] e te sep_none He) as H0.
  pose proof (ExprText_apply false [] e te a ta [] [] sep_none He Ha
                ltac:(constructor)) as H1.
  split; [apply ExprText_parse, H0|]. split; apply ExprText_parse.
  - apply (ExprText_apply false [] _ _ b tb [] [] sep_none H1 Hb
             ltac:(constructor)).
  - apply (ExprText_apply false [] _ _ b tb [] [] sep_none H0 Hb
             ltac:(constructor)).
Qed.

Lemma applications_chain_f_4_5 :
  ExprText (list_ascii_of_string "f") (Word "f")
  /\ parse "f()" = Ok (Apply (Word "f") [])
  /\ parse "f(4)(5)"
     = Ok (Apply (Apply (Word "f") [Value (Number 4)]) [Value (Number 5)]).
Proof.
  assert (Hf : ExprText (list_ascii_of_string "f") (Word "f"))
    by (apply (ExprText_word "f" []); reflexivity).
  pose proof (applications_chain (list_ascii_of_string "f") (Word "f")
                (list_ascii_of_string "4") (Value (Number 4))
                (list_ascii_of_string "5") (Value (Number 5))
                Hf (ExprText_number "4" [] eq_refl)
                (ExprText_number "5" [] eq_refl)) as (H0 & H1 & _).
  split; [exact Hf|]. split; [exact H0|exact H1].
Defined.

(** * The first snapshot of the parser *)

(** The parser of the first snapshot differs from the last one in
    [skipSpace] alone, which skips white space and knows no comments. *)
Module Snapshot1.

(** [string.search] for a character that is not white space: its index. *)
Fixpoint search (s : list ascii) : option nat :=
  match s with
  | [] => None
  | c :: rest => if Chars.isSpace c then S <$> search rest else Some 0
  end.

(** The empty string when nothing but white space is found, else the
    string from the first other character on. *)
Definition skipSpace (s : list ascii) : list ascii :=
  match search s with
  | None => []
  | Some first => drop first s
  end.

Fixpoint parseExpression (fuel : nat) (program : list ascii)
  : Result (Expression * list ascii) :=
  match fuel with
  | O => OutOfFuel
  | S fuel =>
      let program := skipSpace program in
      match matchPrimary program with
      | Some (expr, len) => parseApply fuel expr (drop len program)
      | None =>
          Throw (SyntaxError ("Unexected syntax: " +:+ string_of_list_ascii program))
      end
  end
with parseApply (fuel : nat) (expr : Expression) (program : list ascii)
  : Result (Expression * list ascii) :=
  match fuel with
  | O => OutOfFuel
  | S fuel =>
      let program := skipSpace program in
      if negb (isChar "(" (head program)) then Ok (expr, program)
      else
        let program := skipSpace (drop 1 program) in
        match parseArgs fuel [] program with
        | Ok (args, program) => parseApply fuel (Apply expr args) (drop 1 program)
        | Throw e => Throw e
        | OutOfFuel => OutOfFuel
        | Unmodelled => Unmodelled
        end
  end
with parseArgs (fuel : nat) (args : list Expression) (program : list ascii)
  : Result (list Expression * list ascii) :=
  match fuel with
  | O => OutOfFuel
  | S fuel =>
      if negb (isChar ")" (head program)) then
        match parseExpression fuel program with
        | Ok (arg, rest) =>
            let args := args ++ [arg] in
            let program := skipSpace rest in
            if isChar "," (head program) then
              parseArgs fuel args (skipSpace (drop 1 program))
            else if negb (isChar ")" (head program)) then
              Throw (SyntaxError "Expected ',' or ')'")
            else parseArgs fuel args program
        | Throw e => Throw e
        | OutOfFuel => OutOfFuel
        | Unmodelled => Unmodelled
        end
      else Ok (args, program)
  end.

Definition parseChars (program : list ascii) : Result Expression :=
  match parseExpression (parseFuel program) program with
  | Ok (expr, rest) =>
      if 0 <? length (skipSpace rest) then
        Throw (SyntaxError "Unexpected text after program")
      else Ok expr
  | Throw e => Throw e
  | OutOfFuel => OutOfFuel
  | Unmodelled => Unmodelled
  end.

Definition parse (program : string) : Result Expression :=
  parseChars (list_ascii_of_string program).

End Snapshot1.

(** A text in which [#] does not occur. *)
Definition noComment (s : list ascii) : Prop :=
  Forall (fun c => Ascii.eqb c "#" = false) s.

Lemma noComment_suffix r s : r `suffix_of` s -> noComment s -> noComment r.
Proof. intros [k ->] H. apply Forall_app in H as [_ H]. exact H. Qed.

Lemma noComment_drop n s : noComment s -> noComment (drop n s).
Proof. apply noComment_suffix, suffix_drop. Qed.

Lemma skipSpace_snapshot1_space c s :
  Chars.isSpace c = true -> Snapshot1.skipSpace (c :: s) = Snapshot1.skipSpace s.
Proof.
  intros H. unfold Snapshot1.skipSpace. simpl. rewrite H.
  destruct (Snapshot1.search s); reflexivity.
Qed.

Lemma skipSpace_snapshot1_token c s :
  Chars.isSpace c = false -> Snapshot1.skipSpace (c :: s) = c :: s.
Proof. intros H. unfold Snapshot1.skipSpace. simpl. rewrite H. reflexivity. Qed.

Lemma skipSpace_snapshot1_suffix s : Snapshot1.skipSpace s `suffix_of` s.
Proof.
  unfold Snapshot1.skipSpace. destruct (Snapshot1.search s).
  - apply suffix_drop.
  - apply suffix_nil.
Qed.

(** The last [skipSpace] skips what the first skipped, and then comments. *)
Lemma skipSpace_after_snapshot1 s :
  skipSpace (Snapshot1.skipSpace s) = skipSpace s.
Proof.
  induction s as [|c s IH]; [reflexivity|].
  destruct (Chars.isSpace c) eqn:Hc.
  - rewrite skipSpace_snapshot1_space, skipSpace_space by assumption. exact IH.
  - rewrite skipSpace_snapshot1_token by assumption. reflexivity.
Qed.

Lemma skipSpace_snapshot1_agree s :
  noComment s -> Snapshot1.skipSpace s = skipSpace s.
Proof.
  induction s as [|c s IH]; intros H; [reflexivity|].
  apply Forall_cons in H as [Hc H].
  destruct (Chars.isSpace c) eqn:Hs.
  - rewrite skipSpace_snapshot1_space, skipSpace_space by assumption.
    apply IH, H.
  - rewrite skipSpace_snapshot1_token, skipSpace_token by assumption.
    reflexivity.
Qed.

Lemma parse_snapshot1_agree n :
  (forall s, noComment s -> Snapshot1.parseExpression n s = parseExpression n s)
  /\ (forall e s, noComment s -> Snapshot1.parseApply n e s = parseApply n e s)
  /\ (forall args s,
        noComment s -> Snapshot1.parseArgs n args s = parseArgs n args s).
Proof.
  induction n as [|n (IHe & IHa & IHl)]; [repeat split; reflexivity|].
  assert (Hskip : forall s, noComment s -> noComment (skipSpace s))
    by (intros s; apply noComment_suffix, suffix_drop).
  split; [|split].
  - intros s H. rewrite parseExpression_S. cbn [Snapshot1.parseExpression].
    rewrite (skipSpace_snapshot1_agree s H).
    destruct (matchPrimary (skipSpace s)) as [[e len]|]; [|reflexivity].
    apply IHa, noComment_drop, Hskip, H.
  - intros e s H. rewrite parseApply_S. cbn [Snapshot1.parseApply].
    rewrite (skipSpace_snapshot1_agree s H).
    destruct (negb (isChar "(" (head (skipSpace s)))); [reflexivity|].
    assert (H1 : noComment (drop 1 (skipSpace s)))
      by apply noComment_drop, Hskip, H.
    rewrite (skipSpace_snapshot1_agree _ H1).
    rewrite (IHl [] _ (Hskip _ H1)).
    destruct (parseArgs n [] (skipSpace (drop 1 (skipSpace s))))
      as [[args p]| | |] eqn:Hl; try reflexivity.
    apply IHa, noComment_drop.
    apply (proj2 (proj2 (parse_rest n))) in Hl as [Hl _].
    apply (noComment_suffix _ _ Hl), Hskip, H1.
  - intros args s H. rewrite parseArgs_S. cbn [Snapshot1.parseArgs].
    destruct (negb (isChar ")" (head s))); [|reflexivity].
    rewrite (IHe s H).
    destruct (parseExpression n s) as [[arg r]| | |] eqn:He; try reflexivity.
    apply (proj1 (parse_rest n)) in He as [He _].
    pose proof (noComment_suffix _ _ He H) as Hr.
    rewrite (skipSpace_snapshot1_agree r Hr).
    destruct (isChar "," (head (skipSpace r))).
    + assert (H1 : noComment (drop 1 (skipSpace r)))
        by apply noComment_drop, Hskip, Hr.
      rewrite (skipSpace_snapshot1_agree _ H1). apply IHl, Hskip, H1.
    + destruct (negb (isChar ")" (head (skipSpace r)))); [reflexivity|].
      apply IHl, Hskip, Hr.
Qed.

(** X10: on a program in which [#] does not occur the parser of the first
    snapshot and the parser of the last return the same. *)
Theorem snapshots_agree_without_comments program :
  noComment program -> Snapshot1.parseChars program = parseChars program.
Proof.
  intros H. unfold Snapshot1.parseChars, parseChars.
  rewrite (proj1 (parse_snapshot1_agree _) program H).
  destruct (parseExpression (parseFuel program) program)
    as [[e r]| | |] eqn:He; try reflexivity.
  apply (proj1 (parse_rest _)) in He as [He _].
  rewrite (skipSpace_snapshot1_agree r (noComment_suffix _ _ He H)).
  reflexivity.
Qed.

Lemma snapshots_agree_without_comments_plus :
  noComment (list_ascii_of_string "+(a, 10)")
  /\ Snapshot1.parse "+(a, 10)" = parse "+(a, 10)"
  /\ Snapshot1.parse ("# hello" +:+ nl +:+ "x")
     = Throw (SyntaxError "Unexpected text after program").
Proof.
  assert (H : noComment (list_ascii_of_string "+(a, 10)"))
    by (repeat constructor).
  split; [exact H|]. split; [|reflexivity].
  exact (snapshots_agree_without_comments _ H).
Defined.

(** The [skipSpace] of the last snapshot skips everything the first
    one skipped: skipping with the first and then with the last is skipping
    with the last, and the two return the same unless a [#] follows the
    white space. *)
Theorem skipSpace_extends_snapshot1 s :
  Snapshot1.skipSpace s `suffix_of` s
  /\ skipSpace (Snapshot1.skipSpace s) = skipSpace s
  /\ (isChar "#" (head (Snapshot1.skipSpace s)) = false ->
      skipSpace s = Snapshot1.skipSpace s).
Proof.
  split; [apply skipSpace_snapshot1_suffix|].
  split; [apply skipSpace_after_snapshot1|].
  intros H. rewrite <- skipSpace_after_snapshot1.
  apply skipSpace_fixed.
  induction s as [|c s IH]; [exact I|].
  destruct (Chars.isSpace c) eqn:Hc.
  - rewrite skipSpace_snapshot1_space in * by assumption. apply IH, H.
  - rewrite skipSpace_snapshot1_token in * by assumption.
    simpl in *. split; assumption.
Qed.

(** * Further properties of the evaluator *)

(** ** Invariants of the state *)

Lemma bindArguments_ok localEnv argNames : forall arguments st,
  fst (bindArguments localEnv argNames arguments st) = Ok ().
Proof.
  induction argNames as [|name names IH]; intros [|value values] st;
    try reflexivity.
  cbn [bindArguments]. unfold bind at 1. unfold Env.put at 1. apply IH.
Qed.

Section Invariant.

(** A property [Inv] of the state kept by every assignment to an
    environment that satisfies [Goodenv], by [Object.create], whose new
    object satisfies [Goodenv], and by [print], and such that the object
    [set] assigns to satisfies [Goodenv]. *)
Variables (Inv : State -> Prop) (Goodenv : ref -> Prop).

Hypothesis Inv_put : forall env name value st,
  Inv st -> Goodenv env -> Inv (snd (Env.put env name value st)).
Hypothesis Inv_create : forall parent st,
  Inv st -> Inv (snd (Env.create parent st)) /\ Goodenv (length (heap st)).
Hypothesis Inv_print : forall value st,
  Inv st -> Inv (mkState (heap st) (output st ++ [value])).
Hypothesis Inv_set : forall st env toSet target,
  Inv st ->
  SpecialForms.setLoop (length (heap st)) (heap st) env toSet = Some target ->
  Goodenv target.

Definition keeps {A} (m : M A) : Prop := forall st, Inv st -> Inv (snd (m st)).

Definition keeping (ev : Evaluator) : Prop :=
  forall expr env, Goodenv env -> keeps (ev expr env).

Lemma keeps_bind {A B} (m : M A) (k : A -> M B) :
  keeps m -> (forall a, keeps (k a)) -> keeps (bind m k).
Proof.
  intros Hm Hk st H. unfold bind. specialize (Hm st H).
  destruct (m st) as [[a| | |] st1]; simpl in *; try exact Hm.
  apply Hk, Hm.
Qed.

Lemma keeps_same {A} (r : Result A) : keeps (fun st => (r, st)).
Proof. intros st H. exact H. Qed.

Lemma keeps_bindArguments env argNames : forall arguments,
  Goodenv env -> keeps (bindArguments env argNames arguments).
Proof.
  induction argNames as [|name names IH]; intros [|value values] Hg;
    try apply (keeps_same (Ok ())).
  cbn [bindArguments]. apply keeps_bind.
  - intros st H. apply Inv_put; assumption.
  - intros _. apply IH, Hg.
Qed.

Lemma keeps_callNative f arguments : keeps (callNative f arguments).
Proof.
  destruct f; cbn [callNative].
  - apply keeps_same.
  - intros st H. apply Inv_print, H.
  - apply keeps_same.
  - destruct (argument 0 arguments); apply keeps_same.
  - destruct (argument 0 arguments), (argument 1 arguments); apply keeps_same.
Qed.

Section Evaluator.

Variable ev : Evaluator.
Hypothesis Hev : keeping ev.

Lemma keeps_mapM env args :
  Goodenv env -> keeps (mapM (fun arg => ev arg env) args).
Proof.
  intros Hg. induction args as [|arg args IH]; [apply (keeps_same (Ok []))|].
  cbn [mapM]. apply keeps_bind; [apply Hev, Hg|]. intros v.
  apply keeps_bind; [exact IH|]. intros vs. apply (keeps_same (Ok (v :: vs))).
Qed.

Lemma keeps_form_if args env :
  Goodenv env -> keeps (SpecialForms.form_if ev args env).
Proof.
  intros Hg. destruct args as [|c [|a [|b [|d rest]]]];
    try apply (keeps_same (Throw _)).
  cbn [SpecialForms.form_if]. apply keeps_bind; [apply Hev, Hg|].
  intros v. destruct (negb (isFalse v)); apply Hev, Hg.
Qed.

Lemma keeps_whileLoop cond body env n :
  Goodenv env -> keeps (SpecialForms.whileLoop n ev cond body env).
Proof.
  intros Hg. induction n as [|n IH]; [apply (keeps_same OutOfFuel)|].
  cbn [SpecialForms.whileLoop]. apply keeps_bind; [apply Hev, Hg|].
  intros v. destruct (negb (isFalse v)); [|apply (keeps_same (Ok _))].
  apply keeps_bind; [apply Hev, Hg|]. intros _. exact IH.
Qed.

Lemma keeps_form_while n args env :
  Goodenv env -> keeps (SpecialForms.form_while n ev args env).
Proof.
  intros Hg. destruct args as [|c [|b [|d rest]]];
    try apply (keeps_same (Throw _)).
  apply keeps_whileLoop, Hg.
Qed.

Lemma keeps_doLoop env args : forall value,
  Goodenv env -> keeps (SpecialForms.doLoop ev value args env).
Proof.
  induction args as [|arg args IH]; intros value Hg;
    [apply (keeps_same (Ok value))|].
  cbn [SpecialForms.doLoop]. apply keeps_bind; [apply Hev, Hg|].
  intros v. apply IH, Hg.
Qed.

Lemma keeps_form_define args env :
  Goodenv env -> keeps (SpecialForms.form_define ev args env).
Proof.
  intros Hg. destruct args as [|[| name |] [|valueExpr [|d rest]]];
    try apply (keeps_same (Throw _)).
  cbn [SpecialForms.form_define]. apply keeps_bind; [apply Hev, Hg|].
  intros v. apply keeps_bind; [|intros _; apply (keeps_same (Ok v))].
  intros st H. apply Inv_put; assumption.
Qed.

Lemma keeps_form_set args env :
  Goodenv env -> keeps (SpecialForms.form_set ev args env).
Proof.
  intros Hg. destruct args as [|[| name |] [|valueExpr [|d rest]]];
    try apply (keeps_same (Throw _)).
  cbn [SpecialForms.form_set]. apply keeps_bind; [apply Hev, Hg|].
  intros v st H.
  destruct (SpecialForms.setLoop (length (heap st)) (heap st) env name)
    as [target|] eqn:Hloop; [|exact H].
  apply (keeps_bind (Env.put target name v) (fun _ => ret v)); [| |exact H].
  - intros st' H'. apply Inv_put; [exact H'|].
    (* the target was found in [st] *)
    exact (Inv_set st env name target H Hloop).
  - intros _. apply (keeps_same (Ok v)).
Qed.

Lemma keeps_form_fun args env : keeps (SpecialForms.form_fun args env).
Proof.
  unfold SpecialForms.form_fun.
  destruct (last args) as [body|]; [|apply (keeps_same (Throw _))].
  apply keeps_bind; [|intros names; apply (keeps_same (Ok _))].
  generalize (take (length args - 1) args). intros l.
  induction l as [|x l IH]; [apply (keeps_same (Ok []))|].
  cbn [mapM]. apply keeps_bind.
  - destruct x; [apply (keeps_same (Throw _))|apply (keeps_same (Ok _))
                |apply (keeps_same (Throw _))].
  - intros n. apply keeps_bind; [exact IH|]. intros ns.
    apply (keeps_same (Ok (n :: ns))).
Qed.

Lemma keeps_call op arguments : keeps (call ev op arguments).
Proof.
  destruct op; try apply (keeps_same Unmodelled);
    [|apply keeps_callNative].
  cbn [call].
  destruct (negb (length arguments =? length argNames));
    [apply (keeps_same (Throw _))|].
  intros st H. destruct (Inv_create (Some env) st H) as [H1 Hg].
  unfold bind at 1. unfold Env.create at 1.
  change (mkState (heap st ++ [mkObject ∅ (Some env)]) (output st))
    with (snd (Env.create (Some env) st)).
  pose proof (keeps_bindArguments (length (heap st)) argNames arguments Hg
                _ H1) as H2.
  pose proof (bindArguments_ok (length (heap st)) argNames arguments
                (snd (Env.create (Some env) st))) as Hok.
  unfold bind.
  destruct (bindArguments (length (heap st)) argNames arguments
              (snd (Env.create (Some env) st))) as [[[]| | |] st2];
    try discriminate.
  apply Hev; assumption.
Qed.

Lemma keeps_specialForm n operator form args env :
  specialForm n ev operator = Some form ->
  Goodenv env -> keeps (form args env).
Proof.
  destruct operator as [| name |]; try discriminate.
  unfold specialForm, SpecialForms.table.
  destruct (String.eqb name "if");
    [intros [= <-]; apply keeps_form_if|].
  destruct (String.eqb name "while");
    [intros [= <-]; apply keeps_form_while|].
  destruct (String.eqb name "do");
    [intros [= <-] Hg; apply keeps_doLoop, Hg|].
  destruct (String.eqb name "define");
    [intros [= <-]; apply keeps_form_define|].
  destruct (String.eqb name "fun");
    [intros [= <-] _; apply keeps_form_fun|].
  destruct (String.eqb name "set");
    [intros [= <-]; apply keeps_form_set|discriminate].
Qed.

End Evaluator.

(** Every evaluation in an environment that satisfies [Goodenv] keeps
    [Inv] up to its outcome; a call of the host that the model leaves out
    ends the evaluation as [Unmodelled] in the state it found. *)
Lemma evaluate_keeps fuel : keeping (evaluate fuel).
Proof.
  induction fuel as [|fuel IH]; intros expr env Hg;
    [apply (keeps_same OutOfFuel)|].
  rewrite evaluate_S. destruct expr as [value|name|operator args].
  - apply (keeps_same (Ok _)).
  - intros st H. destruct (Env.get (heap st) env name); exact H.
  - destruct (specialForm fuel (evaluate fuel) operator) as [form|] eqn:Hform.
    + apply (keeps_specialForm _ IH _ _ _ _ _ Hform Hg).
    + apply keeps_bind; [apply IH, Hg|]. intros op.
      destruct (negb (isFunction op)); [apply (keeps_same (Throw _))|].
      apply keeps_bind; [apply keeps_mapM; assumption|].
      intros values. apply keeps_call, IH.
Qed.

End Invariant.

(** ** The global scope is never assigned *)

Lemma evaluate_keeps_root o fuel expr env st :
  proto o = None -> heap st !! topEnv = Some o -> env <> topEnv ->
  heap (snd (evaluate fuel expr env st)) !! topEnv = Some o.
Proof.
  intros Hproto Hroot Henv.
  apply (evaluate_keeps (fun st => heap st !! topEnv = Some o)
           (fun env => env <> topEnv)); try assumption.
  - intros env' name value st' H Hne. cbn [Env.put snd heap].
    rewrite list_lookup_alter_ne by assumption. exact H.
  - intros parent st' H. cbn [Env.create snd heap]. split.
    + rewrite lookup_app_l; [exact H|]. apply lookup_lt_Some in H. exact H.
    + apply lookup_lt_Some in H. unfold topEnv in *. lia.
  - intros value st' H. exact H.
  - intros st' env' toSet target H Hloop ->.
    apply setLoop_target in Hloop as [_ [parent Hp]].
    unfold Env.getPrototypeOf in Hp. rewrite H, Hproto in Hp. discriminate.
Qed.



(** ** Frames and bindings are never removed *)

(** [st'] has the objects of [st], each with its prototype and at least
    its own properties, and the output of [st] extended. *)
Definition grows (st st' : State) : Prop :=
  (forall r o, heap st !! r = Some o ->
     exists o', heap st' !! r = Some o' /\ proto o' = proto o
       /\ forall name, is_Some (props o !! name) -> is_Some (props o' !! name))
  /\ output st `prefix_of` output st'.

Lemma grows_refl st : grows st st.
Proof. split; [|reflexivity]. intros r o H. exists o. auto. Qed.



(** ** [define] *)

Lemma getFrom_put_other env name value name' h : forall n env',
  name' <> name ->
  Env.getFrom n
    (alter (fun o => mkObject (<[name := value]> (props o)) (proto o)) env h)
    env' name'
  = Env.getFrom n h env' name'.
Proof.
  induction n as [|n IH]; intros env' Hne; [reflexivity|].
  cbn [Env.getFrom]. unfold ref in *.
  destruct (decide (env = env')) as [->|Henv].
  - rewrite list_lookup_alter_eq. destruct (h !! env') as [o|]; [|reflexivity].
    cbn [fmap option_fmap option_map props proto].
    rewrite lookup_insert_ne by congruence.
    destruct (props o !! name'); [reflexivity|].
    destruct (proto o); [apply IH, Hne|reflexivity].
  - rewrite list_lookup_alter_ne by assumption.
    destruct (h !! env') as [o|]; [|reflexivity].
    destruct (props o !! name'); [reflexivity|].
    destruct (proto o); [apply IH, Hne|reflexivity].
Qed.

Lemma get_own h env o name value :
  h !! env = Some o -> props o !! name = Some value ->
  Env.get h env name = Some value.
Proof.
  intros Ho Hn. unfold Env.get. pose proof (lookup_lt_Some _ _ _ Ho) as Hlt.
  destruct (length h) as [|n]; [lia|]. cbn [Env.getFrom].
  rewrite Ho, Hn. reflexivity.
Qed.

Lemma evaluate_word_bound fuel name env st value :
  Env.get (heap st) env name = Some value ->
  evaluate (S fuel) (Word name) env st = (Ok value, st).
Proof. intros H. cbn [evaluate]. rewrite H. reflexivity. Qed.

Lemma evaluate_word_unbound fuel name env st :
  Env.get (heap st) env name = None ->
  evaluate (S fuel) (Word name) env st
  = (Throw (ReferenceError ("Undefined variable: " +:+ name)), st).
Proof. intros H. cbn [evaluate]. rewrite H. reflexivity. Qed.

(** X13: [define(name, valueExpr)] returns the value of [valueExpr] and
    binds it to [name] in the current environment, whatever outer
    environments hold: the word [name] read there is that value, every
    other environment object is as it was, and no other word changes its
    value in any environment. *)
Theorem define_binds_current_frame fuel name valueExpr env st value st1 o :
  evaluate fuel valueExpr env st = (Ok value, st1) ->
  heap st1 !! env = Some o ->
  exists st2,
    evaluate (S fuel) (Apply (Word "define") [Word name; valueExpr]) env st
    = (Ok value, st2)
    /\ heap st2 !! env = Some (mkObject (<[name := value]> (props o)) (proto o))
    /\ (forall r, r <> env -> heap st2 !! r = heap st1 !! r)
    /\ output st2 = output st1
    /\ evaluate 1 (Word name) env st2 = (Ok value, st2)
    /\ (forall env' name', name' <> name ->
          Env.get (heap st2) env' name' = Env.get (heap st1) env' name').
Proof.
  intros Hv Ho. unfold ref in *.
  exists (snd (Env.put env name value st1)). split.
  { rewrite evaluate_define. cbn [SpecialForms.form_define].
    rewrite (bind_ok _ _ _ _ _ Hv). reflexivity. }
  cbn [Env.put snd heap output].
  assert (Hnew : alter (fun o0 => mkObject (<[name := value]> (props o0)) (proto o0))
                   env (heap st1) !! env
                 = Some (mkObject (<[name := value]> (props o)) (proto o)))
    by (rewrite list_lookup_alter_eq, Ho; reflexivity).
  split; [exact Hnew|].
  split; [intros r Hr; apply list_lookup_alter_ne; congruence|].
  split; [reflexivity|]. split.
  - apply evaluate_word_bound. cbn [heap].
    apply (get_own _ _ _ name value Hnew), lookup_insert_eq.
  - intros env' name' Hne. unfold Env.get. rewrite length_alter.
    apply getFrom_put_other, Hne.
Qed.

Lemma define_binds_current_frame_x :
  evaluate 1 (Value (Number 4)) 1 (snd (Env.create (Some topEnv) initial))
  = (Ok (VNumber 4), snd (Env.create (Some topEnv) initial))
  /\ heap (snd (Env.create (Some topEnv) initial)) !! 1
     = Some (mkObject ∅ (Some topEnv))
  /\ exists st2,
       evaluate 2 (Apply (Word "define") [Word "true"; Value (Number 4)]) 1
         (snd (Env.create (Some topEnv) initial))
       = (Ok (VNumber 4), st2)
       /\ evaluate 1 (Word "true") 1 st2 = (Ok (VNumber 4), st2)
       /\ heap st2 !! topEnv = Some topEnvObject.
Proof.
  split; [reflexivity|]. split; [reflexivity|].
  destruct (define_binds_current_frame 1 "true" (Value (Number 4)) 1
              (snd (Env.create (Some topEnv) initial)) (VNumber 4)
              (snd (Env.create (Some topEnv) initial))
              (mkObject ∅ (Some topEnv)) eq_refl eq_refl)
    as (st2 & H1 & _ & H3 & _ & H5 & _).
  exists st2. split; [exact H1|]. split; [exact H5|].
  rewrite (H3 topEnv) by discriminate. reflexivity.
Defined.

(** ** [set] *)

(** The environment reached from [env] by [k] prototype links. *)
Fixpoint ancestor (h : list Object) (k : nat) (env : ref) : option ref :=
  match k with
  | O => Some env
  | S k =>
      match Env.getPrototypeOf h env with
      | Some parent => ancestor h k parent
      | None => None
      end
  end.

Lemma setLoop_nearest n : forall h env toSet target,
  SpecialForms.setLoop n h env toSet = Some target ->
  exists k,
    ancestor h k env = Some target
    /\ forall j env', j < k -> ancestor h j env = Some env' ->
         Env.hasOwnProperty h env' toSet = false.
Proof.
  induction n as [|n IH]; intros h env toSet target; [discriminate|].
  cbn [SpecialForms.setLoop].
  destruct (Env.getPrototypeOf h env) as [parent|] eqn:Hp; [|discriminate].
  destruct (Env.hasOwnProperty h env toSet) eqn:Ho.
  - intros [= <-]. exists 0. split; [reflexivity|]. intros j env' Hj. lia.
  - intros H. destruct (IH _ _ _ _ H) as (k & Hk & Hbefore).
    exists (S k). split; [cbn [ancestor]; rewrite Hp; exact Hk|].
    intros [|j] env' Hj; cbn [ancestor].
    + intros [= <-]. exact Ho.
    + rewrite Hp. apply Hbefore. lia.
Qed.

Lemma hasOwnProperty_put h target toSet value r name :
  Env.hasOwnProperty h target toSet = true ->
  Env.hasOwnProperty
    (alter (fun o => mkObject (<[toSet := value]> (props o)) (proto o)) target h)
    r name
  = Env.hasOwnProperty h r name.
Proof.
  intros Hown. unfold Env.hasOwnProperty, ref in *.
  destruct (decide (target = r)) as [->|Hne].
  - rewrite list_lookup_alter_eq. destruct (h !! r) as [o|]; [|reflexivity].
    cbn [fmap option_fmap option_map props].
    destruct (decide (toSet = name)) as [->|Hn].
    + rewrite lookup_insert_eq, Hown. apply bool_decide_eq_true_2.
      eexists. reflexivity.
    + rewrite lookup_insert_ne by assumption. reflexivity.
  - rewrite list_lookup_alter_ne by assumption. reflexivity.
Qed.

(** X14: when the loop of [set] finds an object, it is the nearest
    environment on the prototype chain of the current one that owns the
    name, no environment before it owns the name, and it is not the last of
    the chain; [set] returns the value, assigns it there and nowhere else,
    and creates no binding: every object owns the names it owned. *)
Theorem set_assigns_nearest_owner fuel toSet valueExpr env st value st1 target :
  evaluate fuel valueExpr env st = (Ok value, st1) ->
  SpecialForms.setLoop (length (heap st1)) (heap st1) env toSet = Some target ->
  exists st2 k,
    evaluate (S fuel) (Apply (Word "set") [Word toSet; valueExpr]) env st
    = (Ok value, st2)
    /\ ancestor (heap st1) k env = Some target
    /\ (forall j env', j < k -> ancestor (heap st1) j env = Some env' ->
          Env.hasOwnProperty (heap st1) env' toSet = false)
    /\ Env.hasOwnProperty (heap st1) target toSet = true
    /\ is_Some (Env.getPrototypeOf (heap st1) target)
    /\ evaluate 1 (Word toSet) target st2 = (Ok value, st2)
    /\ (forall r, r <> target -> heap st2 !! r = heap st1 !! r)
    /\ (forall r name,
          Env.hasOwnProperty (heap st2) r name
          = Env.hasOwnProperty (heap st1) r name).
Proof.
  intros Hv Hloop. unfold ref in *.
  destruct (setLoop_nearest _ _ _ _ _ Hloop) as (k & Hk & Hbefore).
  destruct (setLoop_target _ _ _ _ _ Hloop) as [Hown Hproto].
  exists (snd (Env.put target toSet value st1)), k. split.
  { rewrite evaluate_set. cbn [SpecialForms.form_set].
    rewrite (bind_ok _ _ _ _ _ Hv), Hloop. reflexivity. }
  split; [exact Hk|]. split; [exact Hbefore|]. split; [exact Hown|].
  split; [exact Hproto|]. cbn [Env.put snd heap]. split; [|split].
  - destruct Hproto as [parent Hp]. unfold Env.getPrototypeOf, ref in Hp.
    destruct (heap st1 !! target) as [o|] eqn:Ho; [|discriminate].
    apply evaluate_word_bound. cbn [heap].
    apply (get_own _ target
             (mkObject (<[toSet := value]> (props o)) (proto o)) toSet value).
    + rewrite list_lookup_alter_eq, Ho. reflexivity.
    + apply lookup_insert_eq.
  - intros r Hr. apply list_lookup_alter_ne. congruence.
  - intros r name. apply hasOwnProperty_put, Hown.
Qed.

(** When the loop of [set] finds no object, [set] throws the
    Reference error after the value expression was evaluated, and assigns
    nothing. *)
Theorem set_unknown_variable fuel toSet valueExpr env st value st1 :
  evaluate fuel valueExpr env st = (Ok value, st1) ->
  SpecialForms.setLoop (length (heap st1)) (heap st1) env toSet = None ->
  evaluate (S fuel) (Apply (Word "set") [Word toSet; valueExpr]) env st
  = (Throw (ReferenceError ("Unknown variable: " +:+ toSet)), st1).
Proof.
  intros Hv Hloop. rewrite evaluate_set. cbn [SpecialForms.form_set].
  rewrite (bind_ok _ _ _ _ _ Hv), Hloop. reflexivity.
Qed.

(** The state of a call in progress: the global scope, the environment of
    [run] where [x] is 4, and the environment of a call where [val] is 50. *)
Definition innerScope : State :=
  mkState
    [topEnvObject;
     mkObject {[ "x" := VNumber 4 ]} (Some topEnv);
     mkObject {[ "val" := VNumber 50 ]} (Some 1)]
    [].

Lemma set_assigns_nearest_owner_x :
  evaluate 1 (Word "val") 2 innerScope = (Ok (VNumber 50), innerScope)
  /\ SpecialForms.setLoop 3 (heap innerScope) 2 "x" = Some 1
  /\ exists st2,
       evaluate 2 (Apply (Word "set") [Word "x"; Word "val"]) 2 innerScope
       = (Ok (VNumber 50), st2)
       /\ evaluate 1 (Word "x") 1 st2 = (Ok (VNumber 50), st2)
       /\ Env.hasOwnProperty (heap st2) 2 "x" = false.
Proof.
  assert (H1 : evaluate 1 (Word "val") 2 innerScope = (Ok (VNumber 50), innerScope))
    by (vm_compute; reflexivity).
  assert (H2 : SpecialForms.setLoop 3 (heap innerScope) 2 "x" = Some 1)
    by (vm_compute; reflexivity).
  split; [exact H1|]. split; [exact H2|].
  destruct (set_assigns_nearest_owner 1 "x" (Word "val") 2 innerScope
              (VNumber 50) innerScope 1 H1 H2)
    as (st2 & k & Hset & _ & _ & _ & _ & Hread & _ & Hown).
  exists st2. split; [exact Hset|]. split; [exact Hread|].
  rewrite Hown. vm_compute. reflexivity.
Defined.

Lemma set_unknown_variable_quux :
  evaluate 1 (Word "val") 2 innerScope = (Ok (VNumber 50), innerScope)
  /\ SpecialForms.setLoop 3 (heap innerScope) 2 "quux" = None
  /\ evaluate 2 (Apply (Word "set") [Word "quux"; Word "val"]) 2 innerScope
     = (Throw (ReferenceError "Unknown variable: quux"), innerScope).
Proof.
  assert (H1 : evaluate 1 (Word "val") 2 innerScope = (Ok (VNumber 50), innerScope))
    by (vm_compute; reflexivity).
  assert (H2 : SpecialForms.setLoop 3 (heap innerScope) 2 "quux" = None)
    by (vm_compute; reflexivity).
  split; [exact H1|]. split; [exact H2|].
  exact (set_unknown_variable 1 "quux" (Word "val") 2 innerScope (VNumber 50)
           innerScope H1 H2).
Defined.

(** ** [do] and the arguments of a call *)

(** The value [do] returns for the values of its arguments. *)
Definition lastValue (value : Val) (values : list Val) : Val :=
  match last values with
  | Some v => v
  | None => value
  end.

Lemma lastValue_cons value v values :
  lastValue value (v :: values) = lastValue v values.
Proof.
  destruct values as [|w values]; [reflexivity|].
  unfold lastValue. change (last (v :: w :: values)) with (last (w :: values)).
  destruct (last (w :: values)) eqn:E; [reflexivity|].
  apply last_None in E. discriminate.
Qed.

Lemma doLoop_mapM ev env args : forall value st,
  SpecialForms.doLoop ev value args env st
  = match mapM (fun arg => ev arg env) args st with
    | (Ok values, st') => (Ok (lastValue value values), st')
    | (r, st') => (passOn r, st')
    end.
Proof.
  induction args as [|arg args IH]; intros value st; [reflexivity|].
  cbn [SpecialForms.doLoop mapM]. unfold bind at 1 2.
  destruct (ev arg env st) as [[v| | |] st1]; try reflexivity.
  rewrite IH. unfold bind.
  destruct (mapM (fun arg0 => ev arg0 env) args st1) as [[vs| | |] st2];
    try reflexivity.
  cbn [ret]. rewrite lastValue_cons. reflexivity.
Qed.

(** X15: [do] evaluates its arguments as a call evaluates its arguments,
    one after the other from the left, each in the state the one before
    left.  When all return, [do] returns the value of the last, or the
    Boolean [false] when it has no argument; when one does not return, the
    arguments after it are not evaluated and its outcome is the outcome of
    [do]. *)
Theorem do_evaluates_in_order fuel args env st :
  evaluate (S fuel) (Apply (Word "do") args) env st
  = match mapM (fun arg => evaluate fuel arg env) args st with
    | (Ok values, st') => (Ok (lastValue (VBoolean false) values), st')
    | (r, st') => (passOn r, st')
    end.
Proof. rewrite evaluate_do. apply doLoop_mapM. Qed.

(** X16: the arguments of [do] can be split anywhere: when the first part
    returns, [do] of the whole is [do] of the second part run in the state
    the first part left, with the value of the first part for an empty
    second part. *)
Theorem do_splits ev first second env st value st1 :
  SpecialForms.form_do ev first env st = (Ok value, st1) ->
  SpecialForms.form_do ev (first ++ second) env st
  = SpecialForms.doLoop ev value second env st1.
Proof.
  unfold SpecialForms.form_do. generalize (VBoolean false).
  revert st. induction first as [|arg first IH]; intros st v0 H.
  - cbn in H. injection H as <- <-. reflexivity.
  - cbn [app SpecialForms.doLoop] in *. unfold bind in *.
    destruct (ev arg env st) as [[v| | |] st']; try discriminate.
    apply IH, H.
Qed.

Lemma do_splits_define :
  SpecialForms.form_do (evaluate 3)
    [Apply (Word "define") [Word "x"; Value (Number 1)]]
    2 innerScope
  = (Ok (VNumber 1), snd (Env.put 2 "x" (VNumber 1) innerScope))
  /\ SpecialForms.form_do (evaluate 3)
       ([Apply (Word "define") [Word "x"; Value (Number 1)]] ++ [Word "x"])
       2 innerScope
     = (Ok (VNumber 1), snd (Env.put 2 "x" (VNumber 1) innerScope)).
Proof.
  assert (H : SpecialForms.form_do (evaluate 3)
                [Apply (Word "define") [Word "x"; Value (Number 1)]]
                2 innerScope
              = (Ok (VNumber 1), snd (Env.put 2 "x" (VNumber 1) innerScope)))
    by (vm_compute; reflexivity).
  split; [exact H|].
  rewrite (do_splits (evaluate 3) _ [Word "x"] 2 innerScope _ _ H).
  vm_compute. reflexivity.
Defined.

(** ** Errors of applications and of [fun], [define] and [set] *)

(** X17: an application whose operator is not a special form and does not
    evaluate to a function throws the Type error in the state the operator
    left: no argument is evaluated.  A literal as an operator is such a
    case. *)
Theorem applying_a_non_function fuel operator args env st op st1 :
  specialForm fuel (evaluate fuel) operator = None ->
  evaluate fuel operator env st = (Ok op, st1) ->
  isFunction op = false ->
  evaluate (S fuel) (Apply operator args) env st
  = (Throw (TypeError "Applying a non-function."), st1).
Proof. apply evaluate_apply_non_function. Qed.

Lemma applying_a_non_function_5 :
  specialForm 1 (evaluate 1) (Value (Number 5)) = None
  /\ evaluate 1 (Value (Number 5)) 1 innerScope = (Ok (VNumber 5), innerScope)
  /\ evaluate 2 (Apply (Value (Number 5)) [Apply (Word "print") [Value (Number 1)]])
       1 innerScope
     = (Throw (TypeError "Applying a non-function."), innerScope).
Proof.
  split; [reflexivity|]. split; [reflexivity|].
  exact (applying_a_non_function 1 (Value (Number 5))
           [Apply (Word "print") [Value (Number 1)]] 1 innerScope (VNumber 5)
           innerScope eq_refl eq_refl eq_refl).
Defined.

Definition isWord (expr : Expression) : bool :=
  match expr with
  | Word _ => true
  | _ => false
  end.

Lemma mapM_name_not_words params : forall st,
  forallb isWord params = false ->
  mapM SpecialForms.name params st
  = (Throw (SyntaxError "Arg names must be words"), st).
Proof.
  induction params as [|p params IH]; intros st H; [discriminate|].
  cbn [forallb] in H. cbn [mapM]. unfold bind at 1.
  destruct p as [v|n|o a]; try reflexivity.
  cbn [isWord andb SpecialForms.name ret] in *.
  unfold bind. rewrite IH by assumption. reflexivity.
Qed.

(** X18: [fun] with a parameter that is not a word throws the Syntax error
    when it is evaluated, not when the function is called; it evaluates
    nothing and leaves the state as it is, whatever the body. *)
Theorem fun_parameters_are_words fuel params body env st :
  forallb isWord params = false ->
  evaluate (S fuel) (Apply (Word "fun") (params ++ [body])) env st
  = (Throw (SyntaxError "Arg names must be words"), st).
Proof.
  intros H. rewrite evaluate_fun. unfold SpecialForms.form_fun.
  rewrite last_snoc.
  rewrite take_app_length' by (rewrite length_app; simpl; lia).
  unfold bind. rewrite mapM_name_not_words by assumption. reflexivity.
Qed.

Lemma fun_parameters_are_words_5 :
  forallb isWord [Word "a"; Value (Number 5)] = false
  /\ evaluatesTo ["fun(a, 5, a)"] (Throw (SyntaxError "Arg names must be words"))
  /\ evaluate 1 (Apply (Word "fun") ([Word "a"; Value (Number 5)] ++ [Word "a"]))
       1 innerScope
     = (Throw (SyntaxError "Arg names must be words"), innerScope).
Proof.
  split; [reflexivity|]. split; [by_running|].
  exact (fun_parameters_are_words 0 [Word "a"; Value (Number 5)] (Word "a") 1
           innerScope eq_refl).
Defined.

(** The arguments [define] and [set] accept: a word and an expression. *)
Definition isBinding (args : list Expression) : bool :=
  match args with
  | [Word _; _] => true
  | _ => false
  end.

(** [define] and [set] given anything but a word and one expression
    throw their Syntax error before they evaluate anything: the state is as
    it was. *)
Theorem define_and_set_need_a_word fuel args env st :
  isBinding args = false ->
  evaluate (S fuel) (Apply (Word "define") args) env st
  = (Throw (SyntaxError "Bad use of define"), st)
  /\ evaluate (S fuel) (Apply (Word "set") args) env st
     = (Throw (SyntaxError "Bad use of set"), st).
Proof.
  intros H. rewrite evaluate_define, evaluate_set.
  destruct args as [|[v|n|o a] [|e [|d rest]]]; try discriminate;
    split; reflexivity.
Qed.

Lemma define_and_set_need_a_word_5 :
  isBinding [Value (Number 5); Apply (Word "print") [Value (Number 1)]] = false
  /\ evaluate 1
       (Apply (Word "define")
          [Value (Number 5); Apply (Word "print") [Value (Number 1)]])
       1 innerScope
     = (Throw (SyntaxError "Bad use of define"), innerScope).
Proof.
  split; [reflexivity|].
  exact (proj1 (define_and_set_need_a_word 0
                  [Value (Number 5); Apply (Word "print") [Value (Number 1)]]
                  1 innerScope eq_refl)).
Defined.

(** ** The end of [while] and the built-in [print] *)

(** X19: when the loop of [while] returns, the last thing it did was to
    evaluate the condition to the Boolean [false]: the state it returns is
    the state that evaluation left, and nothing was evaluated after it. *)
Theorem while_ends_on_false n ev cond body env : forall st value st',
  SpecialForms.whileLoop n ev cond body env st = (Ok value, st') ->
  exists st0, ev cond env st0 = (Ok (VBoolean false), st').
Proof.
  induction n as [|n IH]; intros st value st'; [discriminate|].
  cbn [SpecialForms.whileLoop]. unfold bind at 1.
  destruct (ev cond env st) as [[c| | |] st1] eqn:Hc; try discriminate.
  destruct (isFalse c) eqn:Hf; cbn [negb].
  - intros [= _ <-]. apply isFalse_spec in Hf as ->. exists st. exact Hc.
  - unfold bind at 1.
    destruct (ev body env st1) as [[w| | |] st2]; try discriminate.
    apply IH.
Qed.

Lemma while_ends_on_false_count :
  SpecialForms.whileLoop 3 (evaluate 5)
    (Apply (Word "<") [Word "x"; Value (Number 5)])
    (Apply (Word "define")
       [Word "x"; Apply (Word "+") [Word "x"; Value (Number 1)]])
    1 innerScope
  = (Ok (VBoolean false), snd (Env.put 1 "x" (VNumber 5) innerScope))
  /\ exists st0,
       evaluate 5 (Apply (Word "<") [Word "x"; Value (Number 5)]) 1 st0
       = (Ok (VBoolean false), snd (Env.put 1 "x" (VNumber 5) innerScope)).
Proof.
  assert (H : SpecialForms.whileLoop 3 (evaluate 5)
                (Apply (Word "<") [Word "x"; Value (Number 5)])
                (Apply (Word "define")
                   [Word "x"; Apply (Word "+") [Word "x"; Value (Number 1)]])
                1 innerScope
              = (Ok (VBoolean false), snd (Env.put 1 "x" (VNumber 5) innerScope)))
    by (vm_compute; reflexivity).
  split; [exact H|].
  exact (while_ends_on_false 3 (evaluate 5) _ _ 1 innerScope _ _ H).
Defined.

(** X20: where the word [print] has its global meaning, [print(expr)]
    returns the value of [expr] as it is, writes that value once after what
    was written before, and leaves every environment as [expr] left it. *)
Theorem print_returns_its_argument fuel expr env st value st1 :
  Env.get (heap st) env "print" = Some (VNative NativePrint) ->
  evaluate (S fuel) expr env st = (Ok value, st1) ->
  evaluate (S (S fuel)) (Apply (Word "print") [expr]) env st
  = (Ok value, mkState (heap st1) (output st1 ++ [value])).
Proof.
  intros Hprint Hexpr.
  rewrite (evaluate_apply (S fuel) (Word "print") [expr] env st
             (VNative NativePrint) st [value] st1);
    [reflexivity|reflexivity|apply evaluate_word_bound, Hprint|reflexivity|].
  cbn [mapM]. rewrite (bind_ok _ _ _ _ _ Hexpr). reflexivity.
Qed.

Lemma print_returns_its_argument_x :
  Env.get (heap innerScope) 2 "print" = Some (VNative NativePrint)
  /\ evaluate 1 (Word "x") 2 innerScope = (Ok (VNumber 4), innerScope)
  /\ evaluate 2 (Apply (Word "print") [Word "x"]) 2 innerScope
     = (Ok (VNumber 4), mkState (heap innerScope) [VNumber 4]).
Proof.
  assert (H1 : Env.get (heap innerScope) 2 "print" = Some (VNative NativePrint))
    by (vm_compute; reflexivity).
  assert (H2 : evaluate 1 (Word "x") 2 innerScope = (Ok (VNumber 4), innerScope))
    by (vm_compute; reflexivity).
  split; [exact H1|]. split; [exact H2|].
  exact (print_returns_its_argument 0 (Word "x") 2 innerScope (VNumber 4)
           innerScope H1 H2).
Defined.

(** * Prototype chains *)

(** ** Well-formed states *)

(** The functions in [v] hold environments below [n]. *)
Fixpoint validVal (n : nat) (v : Val) {struct v} : Prop :=
  match v with
  | VFunction _ _ env => env < n
  | VArray elements =>
      (fix each (l : list Val) : Prop :=
         match l with
         | [] => True
         | x :: rest => validVal n x /\ each rest
         end) elements
  | _ => True
  end.

Lemma validVal_array n l : validVal n (VArray l) <-> Forall (validVal n) l.
Proof.
  induction l as [|x l IH]; [split; intros; [constructor|exact I]|].
  split.
  - intros [Hx Hl]. constructor; [exact Hx|]. apply IH, Hl.
  - intros H. apply Forall_cons in H as [Hx Hl]. split; [exact Hx|].
    apply IH, Hl.
Qed.

Fixpoint validVal_mono (n m : nat) (H : n <= m) (v : Val) {struct v} :
  validVal n v -> validVal m v.
Proof.
  destruct v as [x|s|b| |elements|argNames body env|f]; try (intros; exact I).
  - induction elements as [|x l IH]; [intros; exact I|].
    intros [Hx Hl]. split; [exact (validVal_mono n m H x Hx)|exact (IH Hl)].
  - cbn [validVal]. lia.
Qed.

(** Every prototype is an older object, and every function bound in an
    environment holds an environment of the heap. *)
Definition wellFormed (st : State) : Prop :=
  forall (r : nat) o, heap st !! r = Some o ->
    (forall p, proto o = Some p -> p < r)
    /\ (forall name v, props o !! name = Some v -> validVal (length (heap st)) v).

(** What holds after a computation started in [st]. *)
Definition post {A} (R : nat -> A -> Prop) (st : State) (out : Result A * State)
  : Prop :=
  wellFormed (snd out)
  /\ length (heap st) <= length (heap (snd out))
  /\ forall a, fst out = Ok a -> R (length (heap (snd out))) a.

Lemma post_bind {A B} (R : nat -> A -> Prop) (R' : nat -> B -> Prop)
  (m : M A) (k : A -> M B) st :
  post R st (m st) ->
  (forall a st1,
     wellFormed st1 -> length (heap st) <= length (heap st1) ->
     R (length (heap st1)) a -> post R' st1 (k a st1)) ->
  post R' st (bind m k st).
Proof.
  intros (Hwf & Hlen & Hres) Hk. unfold bind.
  destruct (m st) as [[a| | |] st1]; cbn [fst snd] in *;
    try (split; [exact Hwf|split; [exact Hlen|intros ? [=]]]).
  destruct (Hk a st1 Hwf Hlen (Hres a eq_refl)) as (H1 & H2 & H3).
  split; [exact H1|]. split; [lia|exact H3].
Qed.

Lemma post_same {A} (R : nat -> A -> Prop) (r : Result A) st :
  wellFormed st -> (forall a, r = Ok a -> R (length (heap st)) a) ->
  post R st (r, st).
Proof. intros H Hr. split; [exact H|]. split; [cbn [snd]; lia|exact Hr]. Qed.

Lemma post_fail {A} (R : nat -> A -> Prop) (r : Result A) st :
  wellFormed st -> failure r -> post R st (r, st).
Proof.
  intros H F. apply post_same; [exact H|]. intros a ->. contradiction.
Qed.

Lemma wellFormed_put env name value st :
  wellFormed st -> validVal (length (heap st)) value ->
  wellFormed (snd (Env.put env name value st)).
Proof.
  intros Hwf Hv r o. cbn [Env.put snd heap]. rewrite length_alter.
  unfold ref in *. destruct (decide (env = r)) as [->|Hne].
  - rewrite list_lookup_alter_eq.
    destruct (heap st !! r) as [o1|] eqn:Ho; [|discriminate].
    intros [= <-]. cbn [props proto]. destruct (Hwf r o1 Ho) as [Hp Hn].
    split; [exact Hp|]. intros n v.
    destruct (decide (name = n)) as [->|Hnn].
    + rewrite lookup_insert_eq. intros [= <-]. exact Hv.
    + rewrite lookup_insert_ne by assumption. apply Hn.
  - rewrite list_lookup_alter_ne by assumption. apply Hwf.
Qed.

Lemma wellFormed_create parent st :
  wellFormed st -> parent < length (heap st) ->
  wellFormed (snd (Env.create (Some parent) st)).
Proof.
  intros Hwf Hp r o. cbn [Env.create snd heap]. rewrite length_app.
  intros Hr. apply lookup_app_Some in Hr as [Hr|[Hlen Hr]].
  - destruct (Hwf r o Hr) as [H1 H2]. split; [exact H1|].
    intros n v Hn. apply (validVal_mono (length (heap st))); [lia|].
    apply (H2 n v Hn).
  - destruct (r - length (heap st)) as [|d] eqn:Hd; [|discriminate].
    injection Hr as <-. cbn [props proto]. split.
    + intros p [= <-]. lia.
    + intros n v Hn. rewrite lookup_empty in Hn. discriminate.
Qed.

Lemma getFrom_valid st : wellFormed st -> forall n env name v,
  Env.getFrom n (heap st) env name = Some v -> validVal (length (heap st)) v.
Proof.
  intros Hwf. induction n as [|n IH]; intros env name v; [discriminate|].
  cbn [Env.getFrom]. unfold ref in *.
  destruct (heap st !! env) as [o|] eqn:Ho; [|discriminate].
  destruct (props o !! name) as [w|] eqn:Hn.
  - intros [= <-]. apply (proj2 (Hwf env o Ho) name w Hn).
  - destruct (proto o); [apply IH|discriminate].
Qed.

Lemma binary_primitive op a b v n : Ops.binary op a b = Ok v -> validVal n v.
Proof.
  unfold Ops.binary, Ops.add, Ops.lessThan, Ops.looseEquals, Ops.numeric.
  destruct op, a, b; cbn; try discriminate; intros [= <-]; exact I.
Qed.

Lemma callNative_valid f arguments st :
  wellFormed st -> Forall (validVal (length (heap st))) arguments ->
  post validVal st (callNative f arguments st).
Proof.
  intros Hwf Hargs.
  assert (Harg : forall i, validVal (length (heap st)) (argument i arguments)).
  { intros i. unfold argument. destruct (arguments !! i) as [v|] eqn:Hi;
      [|exact I]. eapply Forall_lookup_1; eassumption. }
  destruct f; cbn [callNative].
  - unfold lift. apply post_same; [exact Hwf|].
    intros v Hv. eapply binary_primitive, Hv.
  - split; [exact Hwf|]. split; [cbn; lia|]. intros v [= <-]. apply Harg.
  - apply post_same; [exact Hwf|]. intros v [= <-].
    apply validVal_array, Hargs.
  - destruct (argument 0 arguments);
      (apply post_same; [exact Hwf|]); intros v; try discriminate;
      intros [= <-]; exact I.
  - pose proof (Harg 0) as H0.
    destruct (argument 0 arguments) as [x|s|b| |l|? ? ?|?];
      destruct (argument 1 arguments);
      (apply post_same; [exact Hwf|]); intros v; try discriminate;
      intros [= <-]; try exact I.
    + destruct (Ops.lookupIndex (list_ascii_of_string s) (Ops.indexOf n));
        exact I.
    + destruct (Ops.lookupIndex l (Ops.indexOf n)) as [w|] eqn:Hw; [|exact I].
      unfold Ops.lookupIndex in Hw. destruct (Ops.indexOf n) as [z|];
        [|discriminate].
      destruct (z <? Z.of_nat (length l))%Z; [|discriminate].
      apply validVal_array in H0. eapply Forall_lookup_1; eassumption.
Qed.

Lemma bindArguments_cons localEnv name names value values st :
  bindArguments localEnv (name :: names) (value :: values) st
  = bindArguments localEnv names values (snd (Env.put localEnv name value st)).
Proof. reflexivity. Qed.

Lemma bindArguments_wellFormed localEnv argNames : forall arguments st,
  wellFormed st -> Forall (validVal (length (heap st))) arguments ->
  wellFormed (snd (bindArguments localEnv argNames arguments st))
  /\ length (heap (snd (bindArguments localEnv argNames arguments st)))
     = length (heap st).
Proof.
  induction argNames as [|name names IH]; intros [|value values] st Hwf Hargs;
    try (split; [exact Hwf|reflexivity]).
  apply Forall_cons in Hargs as [Hv Hvs].
  rewrite bindArguments_cons.
  pose proof (wellFormed_put localEnv name value st Hwf Hv) as H1.
  assert (Hlen : length (heap (snd (Env.put localEnv name value st)))
                 = length (heap st))
    by (cbn [Env.put snd heap]; apply length_alter).
  destruct (IH values _ H1) as [H2 H3]; [rewrite Hlen; exact Hvs|].
  split; [exact H2|]. rewrite H3. exact Hlen.
Qed.

Lemma mapM_name_pure params : forall st,
  exists r, mapM SpecialForms.name params st = (r, st).
Proof.
  induction params as [|p params IH]; intros st; [eexists; reflexivity|].
  cbn [mapM]. unfold bind at 1.
  destruct p as [v|n|o a]; try (eexists; reflexivity).
  cbn [SpecialForms.name ret]. unfold bind. destruct (IH st) as [r ->].
  destruct r; eexists; reflexivity.
Qed.

Section WellFormed.

Variable ev : Evaluator.

(** The evaluator keeps states well formed and returns valid values. *)
Definition soundly (ev : Evaluator) : Prop :=
  forall expr env st,
    wellFormed st -> env < length (heap st) ->
    post validVal st (ev expr env st).

Hypothesis Hev : soundly ev.

Lemma mapM_soundly env args : forall st,
  wellFormed st -> env < length (heap st) ->
  post (fun n values => Forall (validVal n) values) st
    (mapM (fun arg => ev arg env) args st).
Proof.
  induction args as [|arg args IH]; intros st Hwf Henv.
  - apply post_same; [exact Hwf|]. intros vs [= <-]. constructor.
  - cbn [mapM]. apply (post_bind validVal); [apply Hev; assumption|].
    intros v st1 Hwf1 Hlen1 Hv.
    apply (post_bind (fun n values => Forall (validVal n) values));
      [apply IH; [exact Hwf1|lia]|].
    intros vs st2 Hwf2 Hlen2 Hvs. apply post_same; [exact Hwf2|].
    intros l [= <-]. constructor; [|exact Hvs].
    apply (validVal_mono _ _ Hlen2), Hv.
Qed.

Lemma form_if_soundly args env st :
  wellFormed st -> env < length (heap st) ->
  post validVal st (SpecialForms.form_if ev args env st).
Proof.
  intros Hwf Henv. destruct args as [|c [|a [|b [|d rest]]]];
    try (apply post_fail; [exact Hwf|exact I]).
  cbn [SpecialForms.form_if]. apply (post_bind validVal);
    [apply Hev; assumption|].
  intros v st1 Hwf1 Hlen1 _. destruct (negb (isFalse v)); apply Hev;
    (exact Hwf1 || lia).
Qed.

Lemma whileLoop_soundly cond body env n : forall st,
  wellFormed st -> env < length (heap st) ->
  post validVal st (SpecialForms.whileLoop n ev cond body env st).
Proof.
  induction n as [|n IH]; intros st Hwf Henv;
    [apply post_fail; [exact Hwf|exact I]|].
  cbn [SpecialForms.whileLoop]. apply (post_bind validVal);
    [apply Hev; assumption|].
  intros v st1 Hwf1 Hlen1 _. destruct (negb (isFalse v)).
  - apply (post_bind validVal); [apply Hev; [exact Hwf1|lia]|].
    intros w st2 Hwf2 Hlen2 _. apply IH; [exact Hwf2|lia].
  - apply post_same; [exact Hwf1|]. intros w [= <-]. exact I.
Qed.

Lemma doLoop_soundly env args : forall value st,
  wellFormed st -> env < length (heap st) ->
  validVal (length (heap st)) value ->
  post validVal st (SpecialForms.doLoop ev value args env st).
Proof.
  induction args as [|arg args IH]; intros value st Hwf Henv Hv.
  - apply post_same; [exact Hwf|]. intros w [= <-]. exact Hv.
  - cbn [SpecialForms.doLoop]. apply (post_bind validVal);
      [apply Hev; assumption|].
    intros v st1 Hwf1 Hlen1 Hv1. apply IH; [exact Hwf1|lia|exact Hv1].
Qed.

Lemma form_define_soundly args env st :
  wellFormed st -> env < length (heap st) ->
  post validVal st (SpecialForms.form_define ev args env st).
Proof.
  intros Hwf Henv. destruct args as [|[| name |] [|valueExpr [|d rest]]];
    try (apply post_fail; [exact Hwf|exact I]).
  cbn [SpecialForms.form_define]. apply (post_bind validVal);
    [apply Hev; assumption|].
  intros v st1 Hwf1 Hlen1 Hv. unfold bind, Env.put, ret.
  pose proof (wellFormed_put env name v st1 Hwf1 Hv) as H.
  split; [exact H|]. cbn [snd heap fst]. rewrite length_alter.
  split; [lia|]. intros w [= <-]. exact Hv.
Qed.

Lemma form_set_soundly args env st :
  wellFormed st -> env < length (heap st) ->
  post validVal st (SpecialForms.form_set ev args env st).
Proof.
  intros Hwf Henv. destruct args as [|[| name |] [|valueExpr [|d rest]]];
    try (apply post_fail; [exact Hwf|exact I]).
  cbn [SpecialForms.form_set]. apply (post_bind validVal);
    [apply Hev; assumption|].
  intros v st1 Hwf1 Hlen1 Hv.
  destruct (SpecialForms.setLoop (length (heap st1)) (heap st1) env name)
    as [target|]; [|apply post_fail; [exact Hwf1|exact I]].
  unfold bind, Env.put, ret.
  pose proof (wellFormed_put target name v st1 Hwf1 Hv) as H.
  split; [exact H|]. cbn [snd heap fst]. rewrite length_alter.
  split; [lia|]. intros w [= <-]. exact Hv.
Qed.

Lemma form_fun_soundly args env st :
  wellFormed st -> env < length (heap st) ->
  post validVal st (SpecialForms.form_fun args env st).
Proof.
  intros Hwf Henv. unfold SpecialForms.form_fun.
  destruct (last args) as [body|]; [|apply post_fail; [exact Hwf|exact I]].
  unfold bind.
  destruct (mapM_name_pure (take (length args - 1) args) st) as [r ->].
  destruct r; try (apply post_fail; [exact Hwf|exact I]).
  apply post_same; [exact Hwf|]. intros w [= <-]. exact Henv.
Qed.

Lemma call_soundly op arguments st :
  wellFormed st -> validVal (length (heap st)) op ->
  Forall (validVal (length (heap st))) arguments ->
  post validVal st (call ev op arguments st).
Proof.
  intros Hwf Hop Hargs.
  destruct op; try (apply post_fail; [exact Hwf|exact I]);
    [|apply callNative_valid; assumption].
  cbn [call validVal] in *.
  destruct (negb (length arguments =? length argNames));
    [apply post_fail; [exact Hwf|exact I]|].
  unfold bind at 1. unfold Env.create at 1.
  pose proof (wellFormed_create env st Hwf Hop) as H1.
  cbn [Env.create snd] in H1. unfold ref in *.
  remember (mkState (heap st ++ [mkObject ∅ (Some env)]) (output st)) as st1
    eqn:Hst1.
  assert (Hlen1 : length (heap st1) = S (length (heap st)))
    by (subst st1; cbn [heap]; rewrite length_app; cbn [length]; lia).
  destruct (bindArguments_wellFormed (length (heap st)) argNames arguments
              st1 H1) as [H2 H3].
  { rewrite Hlen1. eapply Forall_impl; [exact Hargs|].
    intros v. apply validVal_mono. lia. }
  pose proof (bindArguments_ok (length (heap st)) argNames arguments st1)
    as Hok.
  unfold bind.
  remember (bindArguments (length (heap st)) argNames arguments st1) as out
    eqn:Hout.
  destruct out as [[[]| | |] st2]; try discriminate.
  cbn [snd] in H2, H3.
  destruct (Hev body (length (heap st)) st2 H2) as (H4 & H5 & H6); [lia|].
  split; [exact H4|]. split; [lia|exact H6].
Qed.

Lemma specialForm_soundly n operator form args env st :
  specialForm n ev operator = Some form ->
  wellFormed st -> env < length (heap st) ->
  post validVal st (form args env st).
Proof.
  destruct operator as [| name |]; try discriminate.
  unfold specialForm, SpecialForms.table.
  destruct (String.eqb name "if");
    [intros [= <-]; apply form_if_soundly|].
  destruct (String.eqb name "while");
    [intros [= <-]; destruct args as [|c [|b [|d rest]]];
     try (intros; apply post_fail; [assumption|exact I]);
     apply whileLoop_soundly|].
  destruct (String.eqb name "do");
    [intros [= <-] Hwf Henv; apply doLoop_soundly;
     [assumption|assumption|exact I]|].
  destruct (String.eqb name "define");
    [intros [= <-]; apply form_define_soundly|].
  destruct (String.eqb name "fun");
    [intros [= <-]; apply form_fun_soundly|].
  destruct (String.eqb name "set");
    [intros [= <-]; apply form_set_soundly|discriminate].
Qed.

End WellFormed.

Lemma evaluate_soundly fuel : soundly (evaluate fuel).
Proof.
  induction fuel as [|fuel IH]; intros expr env st Hwf Henv;
    [apply post_fail; [exact Hwf|exact I]|].
  rewrite evaluate_S. destruct expr as [value|name|operator args].
  - apply post_same; [exact Hwf|]. intros v [= <-]. destruct value; exact I.
  - destruct (Env.get (heap st) env name) as [v|] eqn:Hget;
      [|apply post_fail; [exact Hwf|exact I]].
    apply post_same; [exact Hwf|]. intros w [= <-].
    apply (getFrom_valid st Hwf _ _ _ _ Hget).
  - destruct (specialForm fuel (evaluate fuel) operator) as [form|] eqn:Hform.
    + apply (specialForm_soundly _ IH _ _ _ _ _ _ Hform Hwf Henv).
    + apply (post_bind validVal); [apply IH; assumption|].
      intros op st1 Hwf1 Hlen1 Hop.
      destruct (negb (isFunction op));
        [apply post_fail; [exact Hwf1|exact I]|].
      apply (post_bind (fun n values => Forall (validVal n) values));
        [apply mapM_soundly; [exact IH|exact Hwf1|lia]|].
      intros values st2 Hwf2 Hlen2 Hvalues.
      apply call_soundly; [exact IH|exact Hwf2| |exact Hvalues].
      apply (validVal_mono _ _ Hlen2), Hop.
Qed.

Lemma wellFormed_initial : wellFormed initial.
Proof.
  intros r o. destruct r as [|[|r]]; try discriminate.
  intros [= <-]. split; [discriminate|].
  intros name v Hn.
  assert (Hin : (name, v) ∈ map_to_list (props topEnvObject))
    by (apply elem_of_map_to_list, Hn).
  revert Hin. vm_compute map_to_list.
  rewrite !elem_of_cons, elem_of_nil.
  intros H. repeat destruct H as [H|H]; try contradiction;
    injection H as _ ->; exact I.
Qed.

Lemma wellFormed_run fuel lines : wellFormed (snd (run fuel lines)).
Proof.
  unfold run, bind.
  assert (H : wellFormed (snd (Env.create (Some topEnv) initial)))
    by (apply wellFormed_create;
        [apply wellFormed_initial
        |unfold topEnv, initial; cbn [heap length]; lia]).
  cbn [Env.create snd initial heap output length] in *.
  unfold lift. destruct (parse (joinLines lines)) as [expr| | |];
    try exact H.
  apply evaluate_soundly; [exact H|cbn [heap length app]; lia].
Qed.

Lemma run_valid fuel lines v :
  result fuel lines = Ok v ->
  validVal (length (heap (snd (run fuel lines)))) v.
Proof.
  unfold result, run, bind.
  assert (H : wellFormed (snd (Env.create (Some topEnv) initial)))
    by (apply wellFormed_create;
        [apply wellFormed_initial
        |unfold topEnv, initial; cbn [heap length]; lia]).
  cbn [Env.create snd initial heap output length] in *.
  unfold lift. destruct (parse (joinLines lines)) as [expr| | |];
    try discriminate.
  apply evaluate_soundly; [exact H|cbn [heap length app]; lia].
Qed.



(** ** Reading a word *)

Lemma getFrom_enough h name :
  (forall (r : nat) o p, h !! r = Some o -> proto o = Some p -> p < r) ->
  forall n m env, env < n -> env < m ->
    Env.getFrom n h env name = Env.getFrom m h env name.
Proof.
  intros Hd. induction n as [|n IH]; intros m env Hn Hm; [lia|].
  destruct m as [|m]; [lia|]. cbn [Env.getFrom]. unfold ref in *.
  destruct (h !! env) as [o|] eqn:Ho; [|reflexivity].
  destruct (props o !! name); [reflexivity|].
  destruct (proto o) as [p|] eqn:Hp; [|reflexivity].
  pose proof (Hd env o p Ho Hp). apply IH; lia.
Qed.

(** X22: in a well-formed state a word is read from the current
    environment when it is bound there, whatever the environments above
    bind it to; when it is not, it is read as in the prototype of the
    environment; and in an environment without prototype that does not bind
    it, reading it throws the Reference error. *)
Theorem word_is_read_along_the_chain fuel name env st o :
  wellFormed st -> heap st !! env = Some o ->
  evaluate (S fuel) (Word name) env st
  = match props o !! name with
    | Some v => (Ok v, st)
    | None =>
        match proto o with
        | Some parent => evaluate (S fuel) (Word name) parent st
        | None =>
            (Throw (ReferenceError ("Undefined variable: " +:+ name)), st)
        end
    end.
Proof.
  intros Hwf Ho. cbn [evaluate]. unfold Env.get, ref in *.
  pose proof (lookup_lt_Some _ _ _ Ho) as Hlt.
  destruct (length (heap st)) as [|n] eqn:Hlen; [lia|].
  cbn [Env.getFrom]. unfold ref in *. rewrite Ho.
  destruct (props o !! name); [reflexivity|].
  destruct (proto o) as [p|] eqn:Hp; [|reflexivity].
  pose proof (proj1 (Hwf env o Ho) p Hp) as Hlow.
  rewrite (getFrom_enough (heap st) name (fun r o' p' H => proj1 (Hwf r o' H) p')
             n (S n) p) by lia.
  reflexivity.
Qed.

Lemma word_is_read_along_the_chain_true :
  wellFormed (snd (run 5 ["define(x, 4)"]))
  /\ heap (snd (run 5 ["define(x, 4)"])) !! 1
     = Some (mkObject {[ "x" := VNumber 4 ]} (Some topEnv))
  /\ evaluate 1 (Word "true") 1 (snd (run 5 ["define(x, 4)"]))
     = evaluate 1 (Word "true") topEnv (snd (run 5 ["define(x, 4)"]))
  /\ evaluate 1 (Word "x") 1 (snd (run 5 ["define(x, 4)"]))
     = (Ok (VNumber 4), snd (run 5 ["define(x, 4)"])).
Proof.
  assert (H1 : wellFormed (snd (run 5 ["define(x, 4)"])))
    by apply wellFormed_run.
  assert (H2 : heap (snd (run 5 ["define(x, 4)"])) !! 1
               = Some (mkObject {[ "x" := VNumber 4 ]} (Some topEnv)))
    by (vm_compute; reflexivity).
  split; [exact H1|]. split; [exact H2|]. split.
  - exact (word_is_read_along_the_chain 0 "true" 1 _ _ H1 H2).
  - exact (word_is_read_along_the_chain 0 "x" 1 _ _ H1 H2).
Defined.
